(** * A particle filter localising targets in a sensor's field of view

    Shallow embedding of [particle_filter.py] (classes [Particle],
    [SensorPosition], [Measurement]; functions [get_weights] and
    [resample_particles]) and of [distance] and [course] of [geo.py].

    Conventions of the embedding:
    - a Python [float] is a real number of [R]; rounding, overflow, infinities
      and NaN are outside the model;
    - a Python exception is a [Raise] outcome, and calls are sequenced in the
      order Python evaluates them;
    - the process-wide random generator is threaded explicitly: the values
      [random.random()] is going to return form a stream, and the standard
      normal deviates behind [random.gauss] are arguments of [move];
    - a [while] loop runs on fuel; running out of it is the outcome
      [Unfinished], which is no behaviour of the program;
    - particle objects live in a heap and lists hold references to them. *)

From Stdlib Require Import Reals Lra Lia ZArith List.
From stdpp Require Import gmap.

Local Open Scope R_scope.

(** ** Outcomes of a call *)

Inductive exn : Set := ValueError | IndexError | ZeroDivisionError.

Inductive outcome (A : Type) : Type :=
| Ok (a : A)
| Raise (e : exn)
| Unfinished.

Arguments Ok {A} a.
Arguments Raise {A} e.
Arguments Unfinished {A}.

#[global] Instance outcome_bind : MBind outcome := fun _ _ k c =>
  match c with
  | Ok a => k a
  | Raise e => Raise e
  | Unfinished => Unfinished
  end.

(** ** The arithmetic of Python the program uses *)

(** [a / b] on floats. *)
Definition py_div (a b : R) : outcome R :=
  if Req_dec_T b 0 then Raise ZeroDivisionError else Ok (a / b).

(** [math.sqrt]. *)
Definition math_sqrt (x : R) : outcome R :=
  if Rlt_dec x 0 then Raise ValueError else Ok (sqrt x).

(** [int(x)]: truncation towards zero. *)
Definition py_int (x : R) : Z :=
  if Rle_dec 0 x then Int_part x else (- Int_part (- x))%Z.

(** [l[i]] with Python's negative indices. *)
Definition py_get {A : Type} (l : list A) (i : Z) : outcome A :=
  let n := Z.of_nat (length l) in
  let j := if (i <? 0)%Z then (i + n)%Z else i in
  if ((0 <=? j) && (j <? n))%Z
  then match l !! Z.to_nat j with
       | Some a => Ok a
       | None => Raise IndexError
       end
  else Raise IndexError.

(** [max(l)] on a list. *)
Definition py_max (l : list R) : outcome R :=
  match l with
  | [] => Raise ValueError
  | x :: rest => Ok (fold_left Rmax rest x)
  end.

(** ** Data *)

Record Particle : Set := mkParticle {
  surface_range : R;
  hor_angle : R;
  gps_noise : R;
  compass_noise : R;
  range_resolution : R;
  angular_resolution : R;
}.

Module SensorPosition.
Record t : Set := make { lat : R; lon : R; heading : R }.
End SensorPosition.

Module Measurement.
Record t : Set := make { surface_range : R; hor_angle : R }.
End Measurement.

(** [Particle.__init__]; [u1] and [u2] are the two values drawn from
    [random.random()], in this order. *)
Definition Particle_init (fov_range fov_angle gps compass rres ares : R)
    (u1 u2 : R) : Particle :=
  {| surface_range := u1 * fov_range;
     hor_angle := u2 * fov_angle - fov_angle / 2;
     gps_noise := gps;
     compass_noise := compass;
     range_resolution := rres;
     angular_resolution := ares |}.

(** ** Measurement model *)

(** [Particle._gaussian]: the quotient by the square root is taken inside the
    argument of [math.exp], as the source's parentheses have it. *)
Definition _gaussian (mu sigma x : R) : outcome R :=
  a ← py_div (- ((mu - x) ^ 2)) (sigma ^ 2);
  b ← py_div a 2;
  s ← math_sqrt (2 * PI * sigma ^ 2);
  c ← py_div b s;
  Ok (exp c).

(** [Particle.measurement_prob]. *)
Definition measurement_prob (self : Particle) (measurement : Measurement.t)
    : outcome R :=
  pr ← _gaussian (Measurement.surface_range measurement)
                 (range_resolution self) (surface_range self);
  pa ← _gaussian (Measurement.hor_angle measurement)
                 (angular_resolution self) (hor_angle self);
  Ok (pr * pa).

(** The inner loop of [get_weights]: the running maximum over the
    measurements, from the weight so far. *)
Fixpoint best_weight (particle : Particle) (measurements : list Measurement.t)
    (weight : R) : outcome R :=
  match measurements with
  | [] => Ok weight
  | measurement :: rest =>
      pr ← measurement_prob particle measurement;
      best_weight particle rest (Rmax weight pr)
  end.

(** The outer loop of [get_weights], [weights] being the list built so far. *)
Fixpoint get_weights_from (particles : list Particle)
    (measurements : list Measurement.t) (weights : list R)
    : outcome (list R) :=
  match particles with
  | [] => Ok weights
  | particle :: rest =>
      weight ← best_weight particle measurements 0;
      get_weights_from rest measurements (weights ++ [weight])
  end.

Definition get_weights (particles : list Particle)
    (measurements : list Measurement.t) : outcome (list R) :=
  get_weights_from particles measurements [].

(** The density of the normal law of mean [mu] and standard deviation [sigma]
    at [x], as the specification words it; the reference [_gaussian] is
    compared with. *)
Definition normal_density (mu sigma x : R) : R :=
  exp (- ((x - mu) ^ 2) / (2 * sigma ^ 2)) / sqrt (2 * PI * sigma ^ 2).

(** The likelihood the specification asks of [measurement_prob]. *)
Definition density_product (self : Particle) (measurement : Measurement.t) : R :=
  normal_density (Measurement.surface_range measurement)
                 (range_resolution self) (surface_range self) *
  normal_density (Measurement.hor_angle measurement)
                 (angular_resolution self) (hor_angle self).

(** ** The trigonometry the filter calls

    [particle_filter.py] calls [trig.sind], [trig.cosd], [trig.atan2d],
    [trig.course] and [trig.distance]; module [trig] is not among the sources,
    so the motion model takes these five functions as parameters. *)

Module trig.
Class angles : Type := {
  sind : R → R;
  cosd : R → R;
  atan2d : R → R → R;
}.

Class ops : Type := {
  ops_angles : angles;
  course : R → R → R → R → R;
  distance : R → R → R → R → R;
}.

End trig.

#[global] Existing Instance trig.ops_angles.

(** [math.radians] and its inverse. *)
Definition radians (x : R) : R := x * PI / 180.
Definition degrees (x : R) : R := x * 180 / PI.

(** [x % m] on floats, for a positive [m]: the result is in [0, m). *)
Definition py_fmod (x m : R) : R := x - m * IZR (Int_part (x / m)).

(** [geo.py], over an implementation of the degree-based functions.  With
    the cosine for [cosd] the argument of [math.sqrt] in [distance] is a
    haversine, a real of [0, 1]: [math.sqrt] and [math.asin] are taken as the
    total functions of the reals. *)
Module geo.
Section Geo.
Context `{trig.angles}.

Definition EARTH_RADIUS : R := 6372797560856 / 1000000.

Definition distance (lat1 lon1 lat2 lon2 : R) : R :=
  let lat_arc := radians (lat1 - lat2) in
  let lon_arc := radians (lon1 - lon2) in
  let latH := sin (lat_arc * (1 / 2)) ^ 2 in
  let lonH := sin (lon_arc * (1 / 2)) ^ 2 in
  let temp := trig.cosd lat1 * trig.cosd lat2 in
  2 * EARTH_RADIUS * asin (sqrt (latH + temp * lonH)).

Definition course (lat1 lon1 lat2 lon2 : R) : R :=
  let delta_y := trig.sind (lon2 - lon1) * trig.cosd lat2 in
  let delta_x := trig.cosd lat1 * trig.sind lat2 -
                 trig.sind lat1 * trig.cosd lat2 * trig.cosd (lon2 - lon1) in
  py_fmod (trig.atan2d delta_y delta_x) 360.
End Geo.
End geo.

(** Modelled from the spec: module [trig] is missing from the sources.  The
    two-argument arctangent with the values of [math.atan2], in radians; the
    result is in (-PI, PI]. *)
Definition atan2 (y x : R) : R :=
  if Rlt_dec 0 x then atan (y / x)
  else if Rlt_dec x 0
       then (if Rle_dec 0 y then atan (y / x) + PI else atan (y / x) - PI)
       else if Rlt_dec 0 y then PI / 2
            else if Rlt_dec y 0 then - PI / 2 else 0.

(** Modelled from the spec: module [trig] is missing from the sources.  Sine,
    cosine and arctangent in degrees, as the names of [trig.sind],
    [trig.cosd] and [trig.atan2d] and the comment at [Particle.move] say. *)
Definition degree_angles : trig.angles :=
  {| trig.sind := fun x => sin (radians x);
     trig.cosd := fun x => cos (radians x);
     trig.atan2d := fun y x => degrees (atan2 y x) |}.

(** Modelled from the spec: module [trig] is missing from the sources.  Its
    [course] and [distance] are taken to be the functions of these names in
    [geo.py], the great-circle distance and the initial course of the
    geodesy collaborator. *)
Definition degree_trig : trig.ops :=
  {| trig.ops_angles := degree_angles;
     trig.course := @geo.course degree_angles;
     trig.distance := @geo.distance degree_angles |}.

(** ** Motion model *)

(** [random.gauss(mu, sigma)], from the standard normal deviate [z] the
    generator produces. *)
Definition gauss (mu sigma z : R) : R := mu + z * sigma.

(** The six deviates one call of [Particle.move] draws, in the order of the
    calls of [random.gauss]. *)
Record deviates : Set := mkDeviates {
  z_last_lat : R; z_last_lon : R; z_last_heading : R;
  z_curr_lat : R; z_curr_lon : R; z_curr_heading : R;
}.

Section Motion.
Context `{trig.ops}.

(** [Particle.move], as a function from the particle's state before the
    call to its state after.  Were [math.sqrt] to raise, it would do so
    with [hor_angle] already assigned; its argument is a sum of squares. *)
Definition move (self : Particle)
    (last_position curr_position : SensorPosition.t) (z : deviates)
    : outcome Particle :=
  let last_lat := SensorPosition.lat last_position
                  + gauss 0 (gps_noise self) (z_last_lat z) in
  let last_lon := SensorPosition.lon last_position
                  + gauss 0 (gps_noise self) (z_last_lon z) in
  let last_heading := SensorPosition.heading last_position
                      + gauss 0 (compass_noise self) (z_last_heading z) in
  let curr_lat := SensorPosition.lat curr_position
                  + gauss 0 (gps_noise self) (z_curr_lat z) in
  let curr_lon := SensorPosition.lon curr_position
                  + gauss 0 (gps_noise self) (z_curr_lon z) in
  let curr_heading := SensorPosition.heading curr_position
                      + gauss 0 (compass_noise self) (z_curr_heading z) in
  let course := trig.course last_lat last_lon curr_lat curr_lon in
  let sensor_displacement :=
    trig.distance last_lat last_lon curr_lat curr_lon in
  let target_bearing := last_heading - hor_angle self in
  let e1 := sensor_displacement * trig.sind course in
  let n1 := sensor_displacement * trig.cosd course in
  let e2 := surface_range self * trig.sind target_bearing in
  let n2 := surface_range self * trig.cosd target_bearing in
  let predicted_target_bearing := trig.atan2d (e2 - e1) (n2 - n1) in
  let predicted_target_bearing :=
    if Rlt_dec predicted_target_bearing 0
    then predicted_target_bearing + 360
    else predicted_target_bearing in
  new_range ← math_sqrt ((e2 - e1) ^ 2 + (n2 - n1) ^ 2);
  Ok {| surface_range := new_range;
        hor_angle := curr_heading - predicted_target_bearing;
        gps_noise := gps_noise self;
        compass_noise := compass_noise self;
        range_resolution := range_resolution self;
        angular_resolution := angular_resolution self |}.

(** One motion update: the two poses and the deviates drawn. *)
Definition update : Set := SensorPosition.t * SensorPosition.t * deviates.

(** Successive calls of [move] on one particle. *)
Fixpoint moves (self : Particle) (updates : list update) : outcome Particle :=
  match updates with
  | [] => Ok self
  | (last_position, curr_position, z) :: rest =>
      self' ← move self last_position curr_position z;
      moves self' rest
  end.
End Motion.

(** ** Objects and references

    A particle is an object: a list of particles holds references, and
    [move] changes the object a reference denotes. *)

Abbreviation ref := nat (only parsing).
Abbreviation heap := (gmap ref Particle) (only parsing).

(** [particle.move(last_position, curr_position)] on the object at [r]. *)
Definition move_at `{trig.ops} (r : ref)
    (last_position curr_position : SensorPosition.t) (z : deviates)
    (h : heap) : outcome heap :=
  match h !! r with
  | Some self =>
      self' ← move self last_position curr_position z;
      Ok (<[r := self']> h)
  | None => Ok h
  end.

(** ** Resampling *)

(** The state of the random generator: the values [random.random()] is going
    to return. *)
Definition rng : Type := nat → R.

(** [random.random()]. *)
Definition random (g : rng) : R * rng := (g 0%nat, fun n => g (S n)).

(** [a % b] on integers. *)
Definition py_mod (a b : Z) : outcome Z :=
  if (b =? 0)%Z then Raise ZeroDivisionError else Ok (a mod b)%Z.

(** The [while] loop of [resample_particles], from a given [beta] and
    [index]; it yields their values when the loop is left. *)
Fixpoint wheel (fuel : nat) (weights : list R) (num_particles : Z)
    (beta : R) (index : Z) : outcome (R * Z) :=
  match fuel with
  | O => Unfinished
  | S fuel' =>
      w ← py_get weights index;
      if Rgt_dec beta w
      then index' ← py_mod (index + 1) num_particles;
           wheel fuel' weights num_particles (beta - w) index'
      else Ok (beta, index)
  end.

(** The [for] loop of [resample_particles] with [count] iterations to go. *)
Fixpoint draws {A : Type} (fuel : nat) (old_particles : list A)
    (weights : list R) (num_particles : Z) (max_weight : R) (count : nat)
    (g : rng) (beta : R) (index : Z) (new_particles : list A)
    : outcome (list A) :=
  match count with
  | O => Ok new_particles
  | S count' =>
      let '(u, g) := random g in
      let beta := beta + u * 2 * max_weight in
      '(beta, index) ← wheel fuel weights num_particles beta index;
      particle ← py_get old_particles index;
      draws fuel old_particles weights num_particles max_weight count' g
            beta index (new_particles ++ [particle])
  end.

(** [resample_particles]; [A] is what the list holds, references in the
    program. *)
Definition resample_particles {A : Type} (fuel : nat) (old_particles : list A)
    (weights : list R) (g : rng) : outcome (list A) :=
  let num_particles := Z.of_nat (length old_particles) in
  max_weight ← py_max weights;
  let '(u, g) := random g in
  let index := py_int (u * IZR num_particles) in
  draws fuel old_particles weights num_particles max_weight
        (length old_particles) g 0 index [].

(** The value [_gaussian] returns when it returns one. *)
Definition gaussian_value (mu sigma x : R) : R :=
  exp (- ((mu - x) ^ 2) / sigma ^ 2 / 2 / sqrt (2 * PI * sigma ^ 2)).

(** The value [measurement_prob] returns when it returns one. *)
Definition likelihood (self : Particle) (measurement : Measurement.t) : R :=
  gaussian_value (Measurement.surface_range measurement)
                 (range_resolution self) (surface_range self) *
  gaussian_value (Measurement.hor_angle measurement)
                 (angular_resolution self) (hor_angle self).

(** Both resolutions of a particle are nonzero. *)
Definition resolved (self : Particle) : Prop :=
  range_resolution self ≠ 0 ∧ angular_resolution self ≠ 0.

(** The sum of a list of weights: what one revolution of the wheel takes off
    [beta]. *)
Definition total (weights : list R) : R := foldr Rplus 0 weights.


(** ** The rest of [geo.py] *)

(** [math.asin]. *)
Definition math_asin (x : R) : outcome R :=
  if Rlt_dec x (-1) then Raise ValueError
  else if Rlt_dec 1 x then Raise ValueError else Ok (asin x).

Section GeoRest.
Context `{trig.angles}.

(** [geo.distance] again, this time with [math.sqrt] and [math.asin] raising
    outside their domains as they do in Python. *)
Definition distance_checked (lat1 lon1 lat2 lon2 : R) : outcome R :=
  let lat_arc := radians (lat1 - lat2) in
  let lon_arc := radians (lon1 - lon2) in
  let latH := sin (lat_arc * (1 / 2)) ^ 2 in
  let lonH := sin (lon_arc * (1 / 2)) ^ 2 in
  let temp := trig.cosd lat1 * trig.cosd lat2 in
  s ← math_sqrt (latH + temp * lonH);
  a ← math_asin s;
  Ok (2 * geo.EARTH_RADIUS * a).

(** [geo.lat_degree_len]. *)
Definition lat_degree_len (lat : R) : R :=
  111132954 / 1000 - 559822 / 1000 * trig.cosd (2 * lat)
  + 1175 / 1000 * trig.cosd (4 * lat).
End GeoRest.

(** ** Feature data

    What [main] and [get_measurements] read of a feature data record:
    [position.lat], [position.lon], [heading.heading], and of every cluster
    of [filtered_mobile_clusters] its [centroid.range] and
    [centroid.hor_ang]. *)

Module Centroid.
Record t : Set := make { range : R; hor_ang : R }.
End Centroid.

Module Cluster.
Record t : Set := make { centroid : Centroid.t }.
End Cluster.

Module Position.
Record t : Set := make { lat : R; lon : R }.
End Position.

Module Heading.
Record t : Set := make { heading : R }.
End Heading.

Module FeatureData.
Record t : Set := make {
  position : Position.t;
  heading : Heading.t;
  filtered_mobile_clusters : list Cluster.t;
}.
End FeatureData.

(** [get_measurements]. *)
Definition get_measurements (feature_data : FeatureData.t)
    : list Measurement.t :=
  (λ cluster,
     Measurement.make (Centroid.range (Cluster.centroid cluster))
                      (Centroid.hor_ang (Cluster.centroid cluster)))
  <$> FeatureData.filtered_mobile_clusters feature_data.

(** [get_particle_positions]: the list of the [xs] and the list of the
    [ys]. *)
Definition get_particle_positions `{trig.ops} (particles : list Particle)
    : list R * list R :=
  let xs := (λ p, surface_range p * trig.sind (hor_angle p)) <$> particles in
  let ys := (λ p, surface_range p * trig.cosd (hor_angle p)) <$> particles in
  (xs, ys).

(** ** The loop of [main]

    Of [main] the embedding keeps what acts on the particles: the creation of
    the population and the body of the loop over the feature data, up to the
    assignment of [last_position].  Parsing the arguments, reading the
    directory and plotting are left out. *)

(** The object a reference denotes.  Every reference of the program denotes
    one; the default value stands for no behaviour of the program. *)
#[global] Instance Particle_inhabited : Inhabited Particle :=
  populate (mkParticle 0 0 0 0 0 0).

Definition objects (h : gmap nat Particle) (particles : list nat)
    : list Particle :=
  (λ r, h !!! r) <$> particles.

(** The creation of an object: it gets a reference no object has yet. *)
Definition alloc (self : Particle) (h : gmap nat Particle)
    : nat * gmap nat Particle :=
  let r := fresh (dom h) in (r, <[r := self]> h).

(** "Initialize our particles": [count] calls of [Particle(...)], each
    drawing twice from [random.random()], appended to [particles]. *)
Fixpoint init_particles (count : nat)
    (fov_range fov_angle gps compass rres ares : R)
    (g : rng) (h : gmap nat Particle) (particles : list nat)
    : gmap nat Particle * list nat * rng :=
  match count with
  | O => (h, particles, g)
  | S count' =>
      let '(u1, g) := random g in
      let '(u2, g) := random g in
      let '(r, h) :=
        alloc (Particle_init fov_range fov_angle gps compass rres ares u1 u2) h in
      init_particles count' fov_range fov_angle gps compass rres ares g h
                     (particles ++ [r])
  end.

(** The deviates of the successive calls of [move] in one step. *)
Definition noise : Type := nat → deviates.

Section Pump.
Context `{trig.ops}.

(** [for particle in particles: particle.move(last_position,
    current_position)]. *)
Fixpoint move_all (particles : list nat)
    (last_position curr_position : SensorPosition.t) (zs : noise)
    (h : gmap nat Particle) : outcome (gmap nat Particle) :=
  match particles with
  | [] => Ok h
  | r :: rest =>
      h' ← move_at r last_position curr_position (zs 0%nat) h;
      move_all rest last_position curr_position (λ k, zs (S k)) h'
  end.

(** What the loop of [main] carries from one feature data to the next: the
    heap, the list [particles] and [last_position] ([None] in Python before
    the first one). *)
Definition pump_state : Type :=
  gmap nat Particle * list nat * option SensorPosition.t.

(** The body of the loop of [main] for one feature data, with the deviates
    and the generator state of this step. *)
Definition pump_step (fuel : nat) (feature_data : FeatureData.t)
    (zs : noise) (g : rng) (st : pump_state) : outcome pump_state :=
  let '(h, particles, last_position) := st in
  let current_position :=
    SensorPosition.make
      (Position.lat (FeatureData.position feature_data))
      (Position.lon (FeatureData.position feature_data))
      (Heading.heading (FeatureData.heading feature_data)) in
  h ← match last_position with
      | Some last_position =>
          move_all particles last_position current_position zs h
      | None => Ok h
      end;
  let measurements := get_measurements feature_data in
  weights ← get_weights (objects h particles) measurements;
  particles ← resample_particles fuel particles weights g;
  Ok (h, particles, Some current_position).

(** The loop of [main] over the feature data, each with its draws. *)
Fixpoint pump (fuel : nat) (steps : list (FeatureData.t * noise * rng))
    (st : pump_state) : outcome pump_state :=
  match steps with
  | [] => Ok st
  | (feature_data, zs, g) :: rest =>
      st' ← pump_step fuel feature_data zs g st;
      pump fuel rest st'
  end.
End Pump.


(** [h'] has the objects of [h], each with the resolutions it has in [h]. *)
Definition same_resolutions (h h' : gmap nat Particle) : Prop :=
  dom h' = dom h ∧
  ∀ r p', h' !! r = Some p' →
    ∃ p, h !! r = Some p ∧
         range_resolution p' = range_resolution p ∧
         angular_resolution p' = angular_resolution p.

(** [main], from the creation of the particles to the end of the loop: [g]
    is the generator state when the particles are created, and every feature
    data comes with the draws of its step. *)
Definition main `{trig.ops} (fuel : nat) (num_particles : nat)
    (gps_noise compass_noise range_resolution angular_resolution : R)
    (fov_range fov_hor_angle : R) (g : rng)
    (steps : list (FeatureData.t * noise * rng)) : outcome pump_state :=
  let '(h, particles, _) :=
    init_particles num_particles fov_range fov_hor_angle gps_noise
                   compass_noise range_resolution angular_resolution g ∅ [] in
  pump fuel steps (h, particles, None).

(** * Properties *)

(** ** Sequencing *)

Lemma bind_Ok {A B : Type} (a : A) (k : A → outcome B) : (Ok a ≫= k) = k a.
Proof. reflexivity. Qed.

Lemma bind_Raise {A B : Type} (e : exn) (k : A → outcome B) :
  (Raise e ≫= k) = Raise e.
Proof. reflexivity. Qed.

Lemma bind_Ok_inv {A B : Type} (c : outcome A) (k : A → outcome B) (b : B) :
  (c ≫= k) = Ok b → ∃ a, c = Ok a ∧ k a = Ok b.
Proof. destruct c as [a | e | ]; [eauto | discriminate | discriminate]. Qed.

(** ** Python's arithmetic *)

Lemma py_div_ok (a b : R) : b ≠ 0 → py_div a b = Ok (a / b).
Proof. intros Hb. unfold py_div. destruct (Req_dec_T b 0); [contradiction | reflexivity]. Qed.

Lemma py_div_by_zero (a : R) : py_div a 0 = Raise ZeroDivisionError.
Proof. unfold py_div. destruct (Req_dec_T 0 0); [reflexivity | contradiction]. Qed.

Lemma math_sqrt_ok (x : R) : 0 <= x → math_sqrt x = Ok (sqrt x).
Proof. intros Hx. unfold math_sqrt. destruct (Rlt_dec x 0); [lra | reflexivity]. Qed.

Lemma PI_gt_3 : 3 < PI.
Proof. pose proof PI2_3_2. lra. Qed.

Lemma variance_pos (sigma : R) : sigma ≠ 0 → 0 < 2 * PI * sigma ^ 2.
Proof.
  intros Hs. pose proof PI_gt_3.
  assert (0 < sigma ^ 2) by (apply Rsqr_pos_lt in Hs; unfold Rsqr in Hs; nra). nra.
Qed.

(** ** Measurement model *)

Lemma _gaussian_ok (mu sigma x : R) :
  sigma ≠ 0 → _gaussian mu sigma x = Ok (gaussian_value mu sigma x).
Proof.
  intros Hs. unfold _gaussian, gaussian_value.
  pose proof (variance_pos sigma Hs) as Hv.
  rewrite py_div_ok by (apply pow_nonzero; exact Hs). rewrite bind_Ok.
  rewrite py_div_ok by lra. rewrite bind_Ok.
  rewrite math_sqrt_ok by lra. rewrite bind_Ok.
  rewrite py_div_ok; [reflexivity |].
  apply Rgt_not_eq, sqrt_lt_R0, Hv.
Qed.

Lemma _gaussian_zero_sigma (mu x : R) :
  _gaussian mu 0 x = Raise ZeroDivisionError.
Proof.
  unfold _gaussian. replace (0 ^ 2) with 0 by ring.
  rewrite py_div_by_zero. reflexivity.
Qed.

Lemma measurement_prob_ok (self : Particle) (m : Measurement.t) :
  resolved self → measurement_prob self m = Ok (likelihood self m).
Proof.
  intros [Hr Ha]. unfold measurement_prob, likelihood.
  rewrite !_gaussian_ok by assumption. reflexivity.
Qed.


Lemma gaussian_value_at_mean (mu sigma : R) :
  sigma ≠ 0 → gaussian_value mu sigma mu = 1.
Proof.
  intros Hs. unfold gaussian_value.
  pose proof (variance_pos sigma Hs) as Hv.
  replace (- ((mu - mu) ^ 2) / sigma ^ 2 / 2 / sqrt (2 * PI * sigma ^ 2)) with 0.
  - apply exp_0.
  - field. repeat split;
      first [exact Hs | apply Rgt_not_eq, sqrt_lt_R0, Hv].
Qed.

Lemma normal_density_at_mean (mu sigma : R) :
  0 < sigma → normal_density mu sigma mu = 1 / (sqrt (2 * PI) * sigma).
Proof.
  intros Hs. unfold normal_density.
  replace (- ((mu - mu) ^ 2) / (2 * sigma ^ 2)) with 0 by (field; lra).
  rewrite exp_0. f_equal.
  pose proof PI_gt_3.
  replace (sigma ^ 2) with (sigma * sigma) by ring.
  rewrite sqrt_mult by nra. rewrite sqrt_square by lra. reflexivity.
Qed.

(** C1 (the code departs from it).  The claim asks [measurement_prob] for the
    product of two normal densities, [density_product].  At a particle at
    range 50 and bearing 10 with resolutions 1/2 and 3/2, scored against the
    measurement (50, 10), the product of densities is 2 / (3 PI), whereas
    [measurement_prob] returns 1: [_gaussian] divides by the square root
    inside the exponential instead of dividing the exponential by it. *)
Theorem measurement_prob_is_not_the_density_product :
  let self := mkParticle 50 10 10 1 (1 / 2) (3 / 2) in
  let measurement := Measurement.make 50 10 in
  measurement_prob self measurement = Ok 1 ∧
  density_product self measurement = 2 / (3 * PI) ∧
  density_product self measurement ≠ 1.
Proof.
  intros self measurement.
  pose proof PI_gt_3 as Hpi.
  assert (Hd : density_product self measurement = 2 / (3 * PI)).
  { unfold density_product, self, measurement.
    cbv [Measurement.surface_range Measurement.hor_angle range_resolution
         angular_resolution surface_range hor_angle].
    rewrite !normal_density_at_mean by lra.
    assert (Hs : 0 < sqrt (2 * PI)) by (apply sqrt_lt_R0; lra).
    replace (2 / (3 * PI)) with (4 / (3 * (sqrt (2 * PI) * sqrt (2 * PI)))).
    - field. lra.
    - rewrite sqrt_sqrt by lra. field. lra. }
  split; [| split; [exact Hd |]].
  - rewrite measurement_prob_ok by (split; cbn; lra).
    unfold likelihood, self, measurement.
    cbv [Measurement.surface_range Measurement.hor_angle range_resolution
         angular_resolution surface_range hor_angle].
    rewrite !gaussian_value_at_mean by lra. f_equal. lra.
  - rewrite Hd. intros Heq.
    assert (2 / (3 * PI) < 1); [| lra].
    apply Rmult_lt_reg_r with (3 * PI); [lra |].
    replace (2 / (3 * PI) * (3 * PI)) with 2 by (field; lra). lra.
Qed.



(** ** Weights *)

Lemma fold_left_Rmax_init (l : list R) (w : R) : w <= fold_left Rmax l w.
Proof.
  revert w. induction l as [| x l IH]; intros w; cbn; [lra |].
  pose proof (IH (Rmax w x)). pose proof (Rmax_l w x). lra.
Qed.

Lemma fold_left_Rmax_elem (l : list R) (w x : R) :
  In x l → x <= fold_left Rmax l w.
Proof.
  revert w. induction l as [| y l IH]; intros w Hin; cbn; [destruct Hin |].
  destruct Hin as [-> | Hin]; [| apply IH, Hin].
  pose proof (fold_left_Rmax_init l (Rmax w x)). pose proof (Rmax_r w x). lra.
Qed.


(** The weight [get_weights] gives a particle whose resolutions are nonzero. *)
Lemma best_weight_ok (self : Particle) (ms : list Measurement.t) (w : R) :
  resolved self →
  best_weight self ms w = Ok (fold_left Rmax (likelihood self <$> ms) w).
Proof.
  intros Hres. revert w. induction ms as [| m ms IH]; intros w; cbn.
  - reflexivity.
  - rewrite measurement_prob_ok by exact Hres. rewrite bind_Ok. apply IH.
Qed.


Lemma get_weights_from_no_measurement (ps : list Particle) (acc : list R) :
  get_weights_from ps [] acc = Ok (acc ++ ((λ _, 0) <$> ps)).
Proof.
  revert acc. induction ps as [| self ps IH]; intros acc; cbn.
  - rewrite app_nil_r. reflexivity.
  - rewrite IH, <- app_assoc. reflexivity.
Qed.




(** ** Construction *)

(** C8.  With positive [fov_range] and [fov_angle], and draws of
    [random.random()] in [0, 1), a new particle has its range in
    [0, fov_range) and its bearing in [-fov_angle/2, fov_angle/2). *)
Theorem Particle_init_in_field_of_view
    (fov_range fov_angle gps compass rres ares u1 u2 : R) :
  0 < fov_range → 0 < fov_angle → 0 <= u1 < 1 → 0 <= u2 < 1 →
  let self := Particle_init fov_range fov_angle gps compass rres ares u1 u2 in
  0 <= surface_range self < fov_range ∧
  - fov_angle / 2 <= hor_angle self < fov_angle / 2.
Proof.
  intros Hr Ha Hu1 Hu2 self. unfold self, Particle_init; cbn. nra.
Qed.

Lemma Particle_init_in_field_of_view_witness :
  let self := Particle_init 500 90 10 1 (1 / 2) (3 / 2) (1 / 4) (3 / 4) in
  0 <= surface_range self < 500 ∧ - 90 / 2 <= hor_angle self < 90 / 2.
Proof.
  apply (Particle_init_in_field_of_view 500 90 10 1 (1 / 2) (3 / 2)
           (1 / 4) (3 / 4)); lra.
Defined.

(** ** Motion *)

Section MotionFacts.
Context `{trig.ops}.

(** [move] never raises: [math.sqrt] receives a sum of squares. *)
Lemma move_returns (self : Particle) (last curr : SensorPosition.t)
    (z : deviates) :
  ∃ self', move self last curr z = Ok self' ∧
           0 <= surface_range self' ∧
           gps_noise self' = gps_noise self ∧
           compass_noise self' = compass_noise self ∧
           range_resolution self' = range_resolution self ∧
           angular_resolution self' = angular_resolution self.
Proof.
  unfold move. cbv zeta.
  match goal with
  | |- context [math_sqrt ?s] =>
      assert (Hs : 0 <= s) by (apply Rplus_le_le_0_compat; apply pow2_ge_0);
      rewrite (math_sqrt_ok s Hs)
  end.
  rewrite bind_Ok. eexists. split; [reflexivity |]. cbn.
  split; [apply sqrt_pos | auto].
Qed.

End MotionFacts.

(** C7.  Through any sequence of calls of [move], whatever the poses and the
    deviates drawn, every call returns and the range at the end is
    nonnegative; when no call is made the range is the one the particle
    had. *)
Theorem moves_keep_range_nonnegative `{trig.ops} (self : Particle)
    (updates : list update) :
  (updates = [] → 0 <= surface_range self) →
  ∃ self', moves self updates = Ok self' ∧ 0 <= surface_range self'.
Proof.
  revert self. induction updates as [| [[last curr] z] rest IH]; intros self Hinit.
  - exists self. split; [reflexivity | apply Hinit; reflexivity].
  - destruct (move_returns self last curr z) as [self1 [Hmove [Hrange _]]].
    destruct (IH self1 (λ _, Hrange)) as [self' [Hrest Hfinal]].
    exists self'. split; [| exact Hfinal].
    cbn. rewrite Hmove, bind_Ok. exact Hrest.
Qed.


(** ** The degree-based instance *)

Lemma radians_0 : radians 0 = 0.
Proof. unfold radians. lra. Qed.



Lemma atan2_ahead (x : R) : 0 < x → atan2 0 x = 0.
Proof.
  intros Hx. unfold atan2. destruct (Rlt_dec 0 x); [| contradiction].
  replace (0 / x) with 0 by (field; lra). apply atan_0.
Qed.

Lemma geo_distance_same_point `{trig.angles} (lat lon : R) :
  geo.distance lat lon lat lon = 0.
Proof.
  unfold geo.distance. cbv zeta.
  replace (lat - lat) with 0 by lra. replace (lon - lon) with 0 by lra.
  rewrite radians_0. replace (0 * (1 / 2)) with 0 by lra. rewrite sin_0.
  replace (0 ^ 2 + trig.cosd lat * trig.cosd lat * 0 ^ 2) with 0 by ring.
  rewrite sqrt_0, asin_0. ring.
Qed.

(** The sensor turns from heading 0 to heading 90 without leaving its place,
    no noise being drawn: a particle 100 ahead is afterwards at bearing 90,
    still at range 100. *)
Lemma move_turning_in_place :
  @move degree_trig (mkParticle 100 0 10 1 (1 / 2) (3 / 2))
        (SensorPosition.make 0 0 0) (SensorPosition.make 0 0 90)
        (mkDeviates 0 0 0 0 0 0)
  = Ok (mkParticle 100 90 10 1 (1 / 2) (3 / 2)).
Proof.
  unfold move. cbv zeta.
  cbv [SensorPosition.lat SensorPosition.lon SensorPosition.heading
       z_last_lat z_last_lon z_last_heading z_curr_lat z_curr_lon
       z_curr_heading gps_noise compass_noise surface_range hor_angle
       range_resolution angular_resolution gauss
       trig.course trig.distance trig.sind trig.cosd trig.atan2d
       trig.ops_angles degree_trig degree_angles].
  replace (0 + (0 + 0 * 10)) with 0 by lra.
  replace (0 + (0 + 0 * 1)) with 0 by lra.
  replace (90 + (0 + 0 * 1)) with 90 by lra.
  rewrite (@geo_distance_same_point degree_angles).
  rewrite !Rmult_0_l. replace (0 - 0) with 0 by lra.
  rewrite radians_0, sin_0, cos_0.
  replace (100 * 0 - 0) with 0 by lra. replace (100 * 1 - 0) with 100 by lra.
  rewrite atan2_ahead by lra.
  replace (degrees 0) with 0 by (unfold degrees; field; apply Rgt_not_eq, PI_RGT_0).
  destruct (Rlt_dec 0 0) as [Habs | _]; [lra |].
  replace (0 ^ 2 + 100 ^ 2) with (100 ^ 2) by ring.
  rewrite math_sqrt_ok by (apply pow2_ge_0). rewrite bind_Ok.
  rewrite sqrt_pow2 by lra.
  replace (90 - 0) with 90 by lra. reflexivity.
Qed.

Lemma moves_keep_range_nonnegative_witness :
  ∃ self',
    @moves degree_trig (mkParticle 100 0 10 1 (1 / 2) (3 / 2))
      [(SensorPosition.make 0 0 0, SensorPosition.make 0 0 90,
        mkDeviates 0 0 0 0 0 0)] = Ok self' ∧
    0 <= surface_range self'.
Proof.
  apply (@moves_keep_range_nonnegative degree_trig).
  intros Hnil. discriminate Hnil.
Defined.



(** ** Indexing *)

Lemma py_get_nat {A : Type} (l : list A) (i : nat) (a : A) :
  l !! i = Some a → py_get l (Z.of_nat i) = Ok a.
Proof.
  intros Hi. pose proof (lookup_lt_Some _ _ _ Hi) as Hlt. unfold py_get.
  destruct (Z.ltb_spec (Z.of_nat i) 0) as [Hneg | _]; [lia |].
  destruct (Z.leb_spec 0 (Z.of_nat i)) as [_ | Hneg]; [| lia].
  destruct (Z.ltb_spec (Z.of_nat i) (Z.of_nat (length l))) as [_ | Hge]; [| lia].
  cbn. rewrite Nat2Z.id, Hi. reflexivity.
Qed.

Lemma py_get_Ok_lookup {A : Type} (l : list A) (i : Z) (a : A) :
  py_get l i = Ok a → ∃ k, l !! k = Some a.
Proof.
  unfold py_get. intros Hget.
  destruct ((0 <=? _)%Z && _); [| discriminate].
  destruct (l !! _) as [b |] eqn:Hk; [| discriminate].
  injection Hget as ->. eauto.
Qed.

Lemma py_int_in_range (u : R) (n : nat) :
  0 <= u < 1 → (0 < n)%nat →
  ∃ k, py_int (u * IZR (Z.of_nat n)) = Z.of_nat k ∧ (k < n)%nat.
Proof.
  intros [Hu0 Hu1] Hn. rewrite <- INR_IZR_INZ.
  assert (0 < INR n) by (apply lt_0_INR; exact Hn).
  set (x := u * INR n).
  assert (Hx : 0 <= x < INR n) by (unfold x; nra).
  unfold py_int. destruct (Rle_dec 0 x) as [_ | Hneg]; [| lra].
  destruct (base_Int_part x) as [Hlo Hhi].
  assert (Hk0 : (0 <= Int_part x)%Z).
  { apply Z.lt_succ_r. apply lt_IZR. rewrite succ_IZR. lra. }
  assert (Hk1 : (Int_part x < Z.of_nat n)%Z).
  { apply lt_IZR. rewrite <- INR_IZR_INZ. lra. }
  exists (Z.to_nat (Int_part x)). split; lia.
Qed.

Lemma py_mod_next (i n : nat) :
  (i < n)%nat →
  py_mod (Z.of_nat i + 1) (Z.of_nat n)
  = Ok (Z.of_nat (if decide (S i = n) then 0 else S i)).
Proof.
  intros Hi. unfold py_mod.
  destruct (Z.eqb_spec (Z.of_nat n) 0) as [Hz | _]; [lia |].
  f_equal. destruct (decide (S i = n)) as [Heq | Hne].
  - replace (Z.of_nat i + 1)%Z with (Z.of_nat n) by lia.
    rewrite Z_mod_same_full. reflexivity.
  - rewrite Z.mod_small by lia. lia.
Qed.

(** ** The wheel *)

Lemma total_app (l k : list R) : total (l ++ k) = total l + total k.
Proof.
  unfold total. induction l as [| x l IH]; cbn; [lra |]. rewrite IH. lra.
Qed.

Lemma total_nonneg (l : list R) : Forall (λ w, 0 <= w) l → 0 <= total l.
Proof. unfold total. induction 1 as [| x l Hx _ IH]; cbn; lra. Qed.

Lemma total_zero (l : list R) : Forall (λ w, w = 0) l → total l = 0.
Proof. unfold total. induction 1 as [| x l Hx _ IH]; cbn; lra. Qed.

Lemma wheel_more_fuel (weights : list R) (n : Z) (fuel fuel' : nat)
    (beta : R) (index : Z) (r : R * Z) :
  wheel fuel weights n beta index = Ok r → (fuel <= fuel')%nat →
  wheel fuel' weights n beta index = Ok r.
Proof.
  revert fuel' beta index.
  induction fuel as [| fuel IH]; intros fuel' beta index Hrun Hle;
    [discriminate |].
  destruct fuel' as [| fuel']; [lia |]. cbn in *.
  destruct (py_get weights index) as [w | e |]; cbn in *; try discriminate.
  destruct (Rgt_dec beta w); [| exact Hrun].
  destruct (py_mod (index + 1) n) as [index' | e |]; cbn in *; try discriminate.
  apply IH; [exact Hrun | lia].
Qed.

Section Wheel.
Variable weights : list R.
Hypothesis weights_nonneg : Forall (λ w, 0 <= w) weights.

Let n := length weights.

(** With a [beta] that is not positive the loop is left at once. *)
Lemma wheel_at_rest (fuel i : nat) (beta : R) :
  (i < n)%nat → beta <= 0 →
  wheel (S fuel) weights (Z.of_nat n) beta (Z.of_nat i)
  = Ok (beta, Z.of_nat i).
Proof.
  intros Hi Hbeta. destruct (lookup_lt_is_Some_2 weights i Hi) as [w Hw].
  cbn. rewrite (py_get_nat _ _ _ Hw). cbn.
  assert (0 <= w).
  { rewrite Forall_forall in weights_nonneg. apply weights_nonneg.
    eapply list_elem_of_lookup_2. exact Hw. }
  destruct (Rgt_dec beta w); [lra | reflexivity].
Qed.

(** [beta] plus the weights before [index] changes only when the index
    wraps around, where it loses [total weights]: as long as it is at most
    [m] times the total, the loop is left before the index has wrapped
    around [m] times. *)
Lemma wheel_halts_within (m : nat) :
  ∀ (i : nat) (beta : R),
    (i < n)%nat →
    beta + total (take i weights) <= INR m * total weights →
    ∃ fuel beta' i',
      wheel fuel weights (Z.of_nat n) beta (Z.of_nat i)
      = Ok (beta', Z.of_nat i') ∧ (i' < n)%nat ∧ beta' <= beta.
Proof.
  induction m as [| m IHm].
  - intros i beta Hi Hphi. exists 1%nat, beta, i.
    assert (0 <= total (take i weights))
      by (apply total_nonneg, Forall_take, weights_nonneg).
    cbn [INR] in Hphi.
    split; [apply wheel_at_rest; [exact Hi | lra] |]. split; [exact Hi | lra].
  - intros i beta Hi. remember (n - i)%nat as d eqn:Hd.
    revert i beta Hi Hd.
    induction d as [| d IHd]; intros i beta Hi Hd Hphi; [lia |].
    destruct (lookup_lt_is_Some_2 weights i Hi) as [w Hw].
    assert (Hw0 : 0 <= w).
    { rewrite Forall_forall in weights_nonneg. apply weights_nonneg.
      eapply list_elem_of_lookup_2. exact Hw. }
    destruct (Rgt_dec beta w) as [Hgt | Hle].
    + assert (Hnext : ∃ fuel beta' i',
                 wheel fuel weights (Z.of_nat n) (beta - w)
                       (Z.of_nat (if decide (S i = n) then 0 else S i))
                 = Ok (beta', Z.of_nat i') ∧ (i' < n)%nat ∧ beta' <= beta - w).
      { destruct (decide (S i = n)) as [Hwrap | Hstay].
        - apply IHm; [lia |]. rewrite take_0. unfold total at 1. cbn [foldr].
          assert (Hall : total (take (S i) weights) = total weights).
          { rewrite take_ge; [reflexivity | fold n; lia]. }
          rewrite (take_S_r _ _ _ Hw), total_app in Hall.
          unfold total at 2 in Hall. cbn [foldr] in Hall.
          rewrite S_INR, Rmult_plus_distr_r in Hphi. lra.
        - apply IHd; [lia | lia |].
          rewrite (take_S_r _ _ _ Hw), total_app.
          unfold total at 2. cbn [foldr]. lra. }
      destruct Hnext as [fuel [beta' [i' [Hrun [Hi' Hbeta']]]]].
      exists (S fuel), beta', i'. split; [| split; [exact Hi' | lra]].
      cbn. rewrite (py_get_nat _ _ _ Hw). cbn.
      destruct (Rgt_dec beta w); [| contradiction].
      rewrite (py_mod_next i n Hi). cbn. exact Hrun.
    + exists 1%nat, beta, i. split; [| split; [exact Hi | lra]].
      cbn. rewrite (py_get_nat _ _ _ Hw). cbn.
      destruct (Rgt_dec beta w); [contradiction | reflexivity].
Qed.

(** The loop is left, whatever [beta], when some weight is positive, and
    also when [beta] is not positive. *)
Lemma wheel_halts (i : nat) (beta : R) :
  (i < n)%nat → 0 < total weights ∨ beta <= 0 →
  ∃ fuel beta' i',
    wheel fuel weights (Z.of_nat n) beta (Z.of_nat i)
    = Ok (beta', Z.of_nat i') ∧ (i' < n)%nat ∧ beta' <= beta.
Proof.
  intros Hi [Hpos | Hbeta].
  - destruct (INR_archimed (total weights) (beta + total (take i weights)) Hpos)
      as [m Hm].
    apply (wheel_halts_within m); [exact Hi | lra].
  - exists 1%nat, beta, i.
    split; [apply wheel_at_rest; assumption |]. split; [exact Hi | lra].
Qed.
End Wheel.

(** ** The draws *)

Lemma fold_left_Rmax_le_total (rest : list R) (x : R) :
  0 <= x → Forall (λ w, 0 <= w) rest → fold_left Rmax rest x <= x + total rest.
Proof.
  intros Hx Hrest. revert x Hx.
  induction Hrest as [| y rest Hy _ IH]; intros x Hx; unfold total; cbn.
  - lra.
  - fold (total rest).
    assert (Hm : 0 <= Rmax x y <= x + y).
    { unfold Rmax. destruct (Rle_dec x y); lra. }
    pose proof (IH (Rmax x y) (proj1 Hm)). lra.
Qed.

(** [max(weights)] of nonnegative weights is at most their sum. *)
Lemma py_max_le_total (weights : list R) :
  weights ≠ [] → Forall (λ w, 0 <= w) weights →
  ∃ max_weight, py_max weights = Ok max_weight ∧ max_weight <= total weights.
Proof.
  intros Hne Hnn. destruct Hnn as [| x rest Hx Hrest]; [contradiction |].
  eexists. split; [reflexivity |].
  apply (fold_left_Rmax_le_total rest x Hx Hrest).
Qed.

Lemma py_max_of_zeros (weights : list R) :
  weights ≠ [] → Forall (λ w, w = 0) weights → py_max weights = Ok 0.
Proof.
  intros Hne Hz. destruct Hz as [| x rest Hx Hrest]; [contradiction |].
  cbn. f_equal. subst x. clear Hne.
  induction Hrest as [| y rest Hy _ IH]; cbn; [reflexivity |].
  subst y. unfold Rmax at 2. destruct (Rle_dec 0 0); exact IH.
Qed.

Lemma draws_length {A : Type} (fuel : nat) (old : list A) (weights : list R)
    (n : Z) (max_weight : R) (count : nat) :
  ∀ (g : rng) (beta : R) (index : Z) (acc out : list A),
    draws fuel old weights n max_weight count g beta index acc = Ok out →
    length out = (length acc + count)%nat.
Proof.
  induction count as [| count IH]; intros g beta index acc out Hrun; cbn in Hrun.
  - injection Hrun as <-. lia.
  - apply bind_Ok_inv in Hrun. destruct Hrun as [[beta' index'] [_ Hrun]].
    apply bind_Ok_inv in Hrun. destruct Hrun as [particle [_ Hrun]].
    apply IH in Hrun. rewrite Hrun, length_app. cbn. lia.
Qed.

(** Every slot of the result holds what some slot of the input holds. *)
Lemma draws_from_old {A : Type} (fuel : nat) (old : list A) (weights : list R)
    (n : Z) (max_weight : R) (count : nat) :
  ∀ (g : rng) (beta : R) (index : Z) (acc out : list A),
    draws fuel old weights n max_weight count g beta index acc = Ok out →
    Forall (λ x, ∃ k, old !! k = Some x) acc →
    Forall (λ x, ∃ k, old !! k = Some x) out.
Proof.
  induction count as [| count IH]; intros g beta index acc out Hrun Hacc;
    cbn in Hrun.
  - injection Hrun as <-. exact Hacc.
  - apply bind_Ok_inv in Hrun. destruct Hrun as [[beta' index'] [_ Hrun]].
    apply bind_Ok_inv in Hrun. destruct Hrun as [particle [Hget Hrun]].
    apply IH in Hrun; [exact Hrun |].
    apply Forall_app. split; [exact Hacc |].
    constructor; [| constructor]. exact (py_get_Ok_lookup _ _ _ Hget).
Qed.

Section Draws.
Context {A : Type}.
Variables (old : list A) (weights : list R) (max_weight : R).
Hypothesis same_length : length weights = length old.
Hypothesis weights_nonneg : Forall (λ w, 0 <= w) weights.
Hypothesis max_weight_small : 0 < total weights ∨ max_weight <= 0.

(** The [for] loop runs to its end: each of its [while] loops is left. *)
Lemma draws_return (count : nat) :
  ∀ (g : rng) (beta : R) (i : nat) (acc : list A),
    (∀ k, 0 <= g k) → (i < length old)%nat →
    0 < total weights ∨ beta <= 0 →
    ∃ fuel0 out, ∀ fuel, (fuel0 <= fuel)%nat →
      draws fuel old weights (Z.of_nat (length old)) max_weight count g
            beta (Z.of_nat i) acc = Ok out.
Proof.
  induction count as [| count IH]; intros g beta i acc Hg Hi Hbeta.
  - exists 0%nat, acc. intros fuel _. reflexivity.
  - set (beta1 := beta + g 0%nat * 2 * max_weight).
    assert (Hbeta1 : 0 < total weights ∨ beta1 <= 0).
    { destruct Hbeta as [Hpos | Hle]; [left; exact Hpos |].
      destruct max_weight_small as [Hpos | Hmax]; [left; exact Hpos |].
      right. unfold beta1. pose proof (Hg 0%nat). nra. }
    rewrite <- same_length in Hi.
    destruct (wheel_halts weights weights_nonneg i beta1 Hi Hbeta1)
      as [fuel1 [beta' [i' [Hwheel [Hi' Hle]]]]].
    rewrite same_length in Hi'.
    destruct (lookup_lt_is_Some_2 old i' Hi') as [particle Hparticle].
    destruct (IH (λ k, g (S k)) beta' i' (acc ++ [particle])
                 (λ k, Hg (S k)) Hi') as [fuel2 [out Hrest]].
    { destruct Hbeta1 as [Hpos | Hle1]; [left; exact Hpos | right; lra]. }
    exists (Nat.max fuel1 fuel2), out. intros fuel Hfuel.
    cbn. fold beta1. rewrite <- same_length.
    rewrite (wheel_more_fuel _ _ _ fuel _ _ _ Hwheel) by lia. cbn.
    rewrite (py_get_nat _ _ _ Hparticle). cbn.
    rewrite same_length. apply Hrest. lia.
Qed.
End Draws.

(** With weights that are all 0 every draw leaves [beta] at 0 and the index
    where it was. *)
Lemma draws_of_zero_weights {A : Type} (old : list A) (weights : list R)
    (i : nat) (particle : A) (fuel : nat) :
  length weights = length old → Forall (λ w, w = 0) weights →
  old !! i = Some particle →
  ∀ (count : nat) (g : rng) (acc : list A),
    draws (S fuel) old weights (Z.of_nat (length old)) 0 count g 0
          (Z.of_nat i) acc
    = Ok (acc ++ replicate count particle).
Proof.
  intros Hlen Hzero Hi.
  assert (Hnn : Forall (λ w, 0 <= w) weights).
  { eapply Forall_impl; [exact Hzero |]. cbn. intros w ->. lra. }
  assert (Hlt : (i < length weights)%nat)
    by (rewrite Hlen; eapply lookup_lt_Some; exact Hi).
  induction count as [| count IH]; intros g acc.
  - cbn. rewrite app_nil_r. reflexivity.
  - cbn [draws random].
    replace (0 + g 0%nat * 2 * 0) with 0 by lra.
    rewrite <- Hlen at 1.
    rewrite (wheel_at_rest weights Hnn fuel i 0 Hlt) by lra.
    rewrite bind_Ok. rewrite (py_get_nat _ _ _ Hi), bind_Ok.
    rewrite IH. rewrite <- app_assoc. reflexivity.
Qed.

(** ** Resampling *)

Lemma resample_length {A : Type} (fuel : nat) (old : list A)
    (weights : list R) (g : rng) (out : list A) :
  resample_particles fuel old weights g = Ok out → length out = length old.
Proof.
  unfold resample_particles. intros Hrun.
  apply bind_Ok_inv in Hrun. destruct Hrun as [max_weight [_ Hrun]].
  cbn in Hrun. apply draws_length in Hrun. exact Hrun.
Qed.

Lemma resample_returns {A : Type} (old : list A) (weights : list R) (g : rng) :
  old ≠ [] → length weights = length old →
  Forall (λ w, 0 <= w) weights → (∀ k, 0 <= g k < 1) →
  ∃ fuel0 out, ∀ fuel, (fuel0 <= fuel)%nat →
    resample_particles fuel old weights g = Ok out.
Proof.
  intros Hne Hlen Hnn Hg.
  assert (Hpos : (0 < length old)%nat) by (destruct old; [contradiction | cbn; lia]).
  assert (Hwne : weights ≠ []) by (destruct weights; [cbn in Hlen; lia | discriminate]).
  destruct (py_max_le_total weights Hwne Hnn) as [max_weight [Hmax Hle]].
  destruct (py_int_in_range (g 0%nat) (length old) (Hg 0%nat) Hpos)
    as [i [Hindex Hi]].
  assert (Hsmall : 0 < total weights ∨ max_weight <= 0).
  { destruct (Rlt_dec 0 (total weights)); [left; assumption | right; lra]. }
  destruct (draws_return old weights max_weight Hlen Hnn Hsmall (length old)
              (λ k, g (S k)) 0 i [] (λ k, proj1 (Hg (S k))) Hi)
    as [fuel0 [out Hrun]]; [right; lra |].
  exists fuel0, out. intros fuel Hfuel.
  unfold resample_particles. rewrite Hmax, bind_Ok. cbn [random].
  rewrite Hindex. apply Hrun. exact Hfuel.
Qed.

(** C9.  On a nonempty particle list, with nonnegative weights as many as the
    particles and draws of [random.random()] in [0, 1), [resample_particles]
    terminates: with enough fuel for its [while] loops it returns a list, the
    same whatever the fuel beyond that. *)
Theorem resample_particles_terminates {A : Type} (old_particles : list A)
    (weights : list R) (g : rng) :
  old_particles ≠ [] → length weights = length old_particles →
  Forall (λ w, 0 <= w) weights → (∀ k, 0 <= g k < 1) →
  ∃ fuel0 new_particles, ∀ fuel, (fuel0 <= fuel)%nat →
    resample_particles fuel old_particles weights g = Ok new_particles.
Proof. apply resample_returns. Qed.

(** C6.  On a nonempty particle list, with nonnegative weights as many as the
    particles, one of them positive, [resample_particles] returns a list, and
    the list it returns is as long as the particle list. *)
Theorem resample_particles_keeps_the_population_size {A : Type}
    (old_particles : list A) (weights : list R) (g : rng) :
  old_particles ≠ [] → length weights = length old_particles →
  Forall (λ w, 0 <= w) weights → Exists (λ w, 0 < w) weights →
  (∀ k, 0 <= g k < 1) →
  (∃ fuel new_particles,
     resample_particles fuel old_particles weights g = Ok new_particles) ∧
  (∀ fuel new_particles,
     resample_particles fuel old_particles weights g = Ok new_particles →
     length new_particles = length old_particles).
Proof.
  intros Hne Hlen Hnn _ Hg. split.
  - destruct (resample_returns old_particles weights g Hne Hlen Hnn Hg)
      as [fuel0 [out Hrun]].
    exists fuel0, out. apply Hrun. lia.
  - intros fuel out. apply resample_length.
Qed.

(** C4.  On a nonempty particle list of length N, with N weights all 0,
    [resample_particles] returns N times the particle at the index first
    drawn, [int(random.random() * N)]. *)
Theorem resample_particles_collapses_on_zero_weights {A : Type}
    (old_particles : list A) (weights : list R) (g : rng) :
  old_particles ≠ [] → length weights = length old_particles →
  Forall (λ w, w = 0) weights → 0 <= g 0%nat < 1 →
  ∃ (i : nat) (particle : A),
    py_int (g 0%nat * IZR (Z.of_nat (length old_particles))) = Z.of_nat i ∧
    old_particles !! i = Some particle ∧
    ∀ fuel, resample_particles (S fuel) old_particles weights g
            = Ok (replicate (length old_particles) particle).
Proof.
  intros Hne Hlen Hzero Hg.
  assert (Hpos : (0 < length old_particles)%nat)
    by (destruct old_particles; [contradiction | cbn; lia]).
  assert (Hwne : weights ≠ [])
    by (destruct weights; [cbn in Hlen; lia | discriminate]).
  destruct (py_int_in_range (g 0%nat) (length old_particles) Hg Hpos)
    as [i [Hindex Hi]].
  destruct (lookup_lt_is_Some_2 old_particles i Hi) as [particle Hparticle].
  exists i, particle. split; [exact Hindex |]. split; [exact Hparticle |].
  intros fuel. unfold resample_particles.
  rewrite (py_max_of_zeros weights Hwne Hzero), bind_Ok. cbn [random].
  rewrite Hindex.
  apply (draws_of_zero_weights old_particles weights i particle fuel
           Hlen Hzero Hparticle).
Qed.

Lemma resample_particles_terminates_witness :
  ∃ fuel0 new_particles, ∀ fuel, (fuel0 <= fuel)%nat →
    resample_particles fuel [7; 8; 9]%nat [1; 0; 1 / 2] (λ _, 1 / 2)
    = Ok new_particles.
Proof.
  apply (resample_particles_terminates [7; 8; 9]%nat [1; 0; 1 / 2]
           (λ _, 1 / 2)).
  - discriminate.
  - reflexivity.
  - repeat constructor; lra.
  - intros k. lra.
Defined.

Lemma resample_particles_keeps_the_population_size_witness :
  (∃ fuel new_particles,
     resample_particles fuel [7; 8; 9]%nat [1; 0; 1 / 2] (λ _, 1 / 2)
     = Ok new_particles) ∧
  (∀ fuel new_particles,
     resample_particles fuel [7; 8; 9]%nat [1; 0; 1 / 2] (λ _, 1 / 2)
     = Ok new_particles →
     length new_particles = 3%nat).
Proof.
  apply (resample_particles_keeps_the_population_size [7; 8; 9]%nat
           [1; 0; 1 / 2] (λ _, 1 / 2)).
  - discriminate.
  - reflexivity.
  - repeat constructor; lra.
  - apply Exists_cons_hd. lra.
  - intros k. lra.
Defined.

Lemma resample_particles_collapses_on_zero_weights_witness :
  ∃ (i : nat) (particle : nat),
    py_int (1 / 2 * IZR (Z.of_nat 3)) = Z.of_nat i ∧
    [7; 8; 9]%nat !! i = Some particle ∧
    ∀ fuel, resample_particles (S fuel) [7; 8; 9]%nat [0; 0; 0] (λ _, 1 / 2)
            = Ok (replicate 3 particle).
Proof.
  apply (resample_particles_collapses_on_zero_weights [7; 8; 9]%nat
           [0; 0; 0] (λ _, 1 / 2)).
  - discriminate.
  - reflexivity.
  - repeat constructor.
  - lra.
Defined.

(** ** Sharing *)

Lemma wheel_advance (fuel : nat) (weights : list R) (n : Z) (beta w : R)
    (index index' : Z) :
  py_get weights index = Ok w → beta > w →
  py_mod (index + 1) n = Ok index' →
  wheel (S fuel) weights n beta index = wheel fuel weights n (beta - w) index'.
Proof.
  intros Hw Hgt Hnext. cbn. rewrite Hw. cbn.
  destruct (Rgt_dec beta w); [| contradiction]. rewrite Hnext. reflexivity.
Qed.

Lemma wheel_stop (fuel : nat) (weights : list R) (n : Z) (beta w : R)
    (index : Z) :
  py_get weights index = Ok w → ¬ beta > w →
  wheel (S fuel) weights n beta index = Ok (beta, index).
Proof.
  intros Hw Hle. cbn. rewrite Hw. cbn.
  destruct (Rgt_dec beta w); [contradiction | reflexivity].
Qed.

(** Two particles, the first alone with a positive weight, every draw of
    [random.random()] being 1/2: both slots of the result hold the first
    particle. *)
Lemma resample_draws_twice {A : Type} (a b : A) :
  resample_particles 3 [a; b] [1; 0] (λ _, 1 / 2) = Ok [a; a].
Proof.
  unfold resample_particles. cbn [py_max fold_left length random].
  assert (Hmax : Rmax 1 0 = 1) by (apply Rmax_left; lra).
  rewrite Hmax, bind_Ok.
  assert (Hindex : py_int (1 / 2 * IZR (Z.of_nat 2)) = 1%Z).
  { change (Z.of_nat 2) with 2%Z. replace (1 / 2 * 2) with 1 by lra.
    unfold py_int. destruct (Rle_dec 0 1) as [_ | Hneg]; [| lra].
    symmetry. apply Int_part_spec. lra. }
  rewrite Hindex. cbn [draws random].
  rewrite (wheel_advance 2 [1; 0] _ _ 0 1%Z 0%Z) by (reflexivity || lra).
  rewrite (wheel_stop 1 [1; 0] _ _ 1 0%Z) by (reflexivity || lra).
  rewrite bind_Ok. change (py_get [a; b] 0%Z) with (Ok a). rewrite bind_Ok.
  rewrite (wheel_advance 2 [1; 0] _ _ 1 0%Z 1%Z) by (reflexivity || lra).
  rewrite (wheel_advance 1 [1; 0] _ _ 0 1%Z 0%Z) by (reflexivity || lra).
  rewrite (wheel_stop 0 [1; 0] _ _ 1 0%Z) by (reflexivity || lra).
  rewrite bind_Ok. change (py_get [a; b] 0%Z) with (Ok a). rewrite bind_Ok.
  reflexivity.
Qed.

Lemma resample_from_old {A : Type} (fuel : nat) (old : list A)
    (weights : list R) (g : rng) (out : list A) :
  resample_particles fuel old weights g = Ok out →
  Forall (λ x, ∃ k, old !! k = Some x) out.
Proof.
  unfold resample_particles. intros Hrun.
  apply bind_Ok_inv in Hrun. destruct Hrun as [max_weight [_ Hrun]].
  cbn in Hrun. eapply draws_from_old; [exact Hrun | constructor].
Qed.

(** [move_at] changes the object at its reference and no other. *)
Lemma move_at_frame `{trig.ops} (r : ref) (last curr : SensorPosition.t)
    (z : deviates) (h h' : heap) (self : Particle) :
  h !! r = Some self → move_at r last curr z h = Ok h' →
  ∃ self', move self last curr z = Ok self' ∧ h' !! r = Some self' ∧
           ∀ r', r' ≠ r → h' !! r' = h !! r'.
Proof.
  unfold move_at. intros Hr Hrun. rewrite Hr in Hrun.
  apply bind_Ok_inv in Hrun. destruct Hrun as [self' [Hmove Hrun]].
  injection Hrun as <-. exists self'. split; [exact Hmove |].
  split; [apply lookup_insert_eq |].
  intros r' Hne. apply lookup_insert_ne. congruence.
Qed.

(** C2, as the code has it.  [resample_particles] creates no particle: every
    slot of its result holds a reference held by a slot of the input list.
    So a [move] through one slot of the result changes the particle that all
    slots holding the same reference see, in the result and in the input, and
    leaves the particles under other references as they were. *)
Theorem resample_particles_shares_its_input `{trig.ops} (fuel : nat)
    (old_particles : list ref) (weights : list R) (g : rng)
    (new_particles : list ref) :
  resample_particles fuel old_particles weights g = Ok new_particles →
  (∀ j r, new_particles !! j = Some r → ∃ k, old_particles !! k = Some r) ∧
  (∀ (h h' : heap) (i : nat) (r : ref) (self : Particle)
     (last_position curr_position : SensorPosition.t) (z : deviates),
     new_particles !! i = Some r → h !! r = Some self →
     move_at r last_position curr_position z h = Ok h' →
     ∃ self', move self last_position curr_position z = Ok self' ∧
       (∀ j, new_particles !! j = Some r → h' !! r = Some self') ∧
       (∀ k, old_particles !! k = Some r → h' !! r = Some self') ∧
       (∀ r', r' ≠ r → h' !! r' = h !! r')).
Proof.
  intros Hrun. split.
  - intros j r Hj. pose proof (resample_from_old _ _ _ _ _ Hrun) as Hall.
    rewrite Forall_forall in Hall. apply Hall.
    eapply list_elem_of_lookup_2. exact Hj.
  - intros h h' i r self last curr z _ Hr Hmove.
    destruct (move_at_frame r last curr z h h' self Hr Hmove)
      as [self' [Hself' [Hat Hother]]].
    exists self'. split; [exact Hself' |]. split; [| split]; auto.
Qed.

Lemma resample_particles_shares_its_input_witness :
  (∀ j r, [0; 0]%nat !! j = Some r → ∃ k, [0; 1]%nat !! k = Some r) ∧
  (∀ (h h' : heap) (i : nat) (r : ref) (self : Particle)
     (last_position curr_position : SensorPosition.t) (z : deviates),
     [0; 0]%nat !! i = Some r → h !! r = Some self →
     @move_at degree_trig r last_position curr_position z h = Ok h' →
     ∃ self', @move degree_trig self last_position curr_position z = Ok self' ∧
       (∀ j, [0; 0]%nat !! j = Some r → h' !! r = Some self') ∧
       (∀ k, [0; 1]%nat !! k = Some r → h' !! r = Some self') ∧
       (∀ r', r' ≠ r → h' !! r' = h !! r')).
Proof.
  apply (@resample_particles_shares_its_input degree_trig 3 [0; 1]%nat
           [1; 0] (λ _, 1 / 2) [0; 0]%nat).
  apply resample_draws_twice.
Defined.

(** C2 does not hold as stated.  Two particles on the heap, the first alone
    with a positive weight: both slots of the resampled list hold the
    reference of the first one.  Moving the particle of slot 0 (the sensor
    turns from heading 0 to heading 90) changes the particle slot 1 sees,
    which is also the first particle of the input list. *)
Lemma resampled_particles_are_not_copies :
  let p := mkParticle 100 0 10 1 (1 / 2) (3 / 2) in
  let q := mkParticle 200 20 10 1 (1 / 2) (3 / 2) in
  let h : heap := <[0%nat := p]> (<[1%nat := q]> ∅) in
  let old_particles : list ref := [0; 1]%nat in
  ∃ (new_particles : list ref) (r0 r1 : ref) (h' : heap),
    resample_particles 3 old_particles [1; 0] (λ _, 1 / 2) = Ok new_particles ∧
    new_particles !! 0%nat = Some r0 ∧
    new_particles !! 1%nat = Some r1 ∧
    old_particles !! 0%nat = Some r1 ∧
    @move_at degree_trig r0 (SensorPosition.make 0 0 0)
             (SensorPosition.make 0 0 90) (mkDeviates 0 0 0 0 0 0) h = Ok h' ∧
    h !! r1 = Some p ∧
    h' !! r1 = Some (mkParticle 100 90 10 1 (1 / 2) (3 / 2)) ∧
    h' !! r1 ≠ h !! r1.
Proof.
  intros p q h old_particles.
  assert (Hp : h !! 0%nat = Some p) by (apply lookup_insert_eq).
  exists [0; 0]%nat, 0%nat, 0%nat,
         (<[0%nat := mkParticle 100 90 10 1 (1 / 2) (3 / 2)]> h).
  split; [apply resample_draws_twice |].
  split; [reflexivity |]. split; [reflexivity |]. split; [reflexivity |].
  split.
  { unfold move_at. rewrite Hp. unfold p.
    rewrite move_turning_in_place. reflexivity. }
  split; [exact Hp |].
  split; [apply lookup_insert_eq |].
  rewrite lookup_insert_eq, Hp. unfold p. intros Heq.
  injection Heq as Heq. lra.
Qed.


(** * Further properties of the code *)

(** ** The likelihood *)

Lemma exp_le (x y : R) : x <= y → exp x <= exp y.
Proof.
  intros [Hlt | ->]; [left; apply exp_increasing, Hlt | right; reflexivity].
Qed.

(** The value of [_gaussian] is the exponential of minus the squared error
    times a positive factor that depends on [sigma] alone. *)
Lemma gaussian_value_shape (sigma : R) :
  sigma ≠ 0 →
  ∃ c, 0 < c ∧ ∀ mu x, gaussian_value mu sigma x = exp (- (c * (mu - x) ^ 2)).
Proof.
  intros Hs. pose proof (variance_pos sigma Hs) as Hv.
  assert (Hroot : 0 < sqrt (2 * PI * sigma ^ 2)) by (apply sqrt_lt_R0, Hv).
  assert (Hsq : 0 < sigma ^ 2) by (pose proof PI_gt_3; nra).
  exists (/ (sigma ^ 2 * 2 * sqrt (2 * PI * sigma ^ 2))). split.
  - apply Rinv_0_lt_compat. nra.
  - intros mu x. unfold gaussian_value. f_equal. field. split; lra.
Qed.

Lemma gaussian_value_le_1 (mu sigma x : R) :
  sigma ≠ 0 → 0 < gaussian_value mu sigma x <= 1.
Proof.
  intros Hs. destruct (gaussian_value_shape sigma Hs) as [c [Hc Heq]].
  rewrite Heq. split; [apply exp_pos |].
  rewrite <- exp_0. apply exp_le.
  pose proof (pow2_ge_0 (mu - x)). nra.
Qed.


Lemma gaussian_value_monotone (mu sigma x x' : R) :
  sigma ≠ 0 → Rabs (mu - x) <= Rabs (mu - x') →
  gaussian_value mu sigma x' <= gaussian_value mu sigma x.
Proof.
  intros Hs Hd. destruct (gaussian_value_shape sigma Hs) as [c [Hc Heq]].
  rewrite !Heq. apply exp_le.
  assert ((mu - x) ^ 2 <= (mu - x') ^ 2).
  { rewrite <- !Rsqr_pow2. apply Rsqr_le_abs_1. exact Hd. }
  nra.
Qed.



(** X2.  Of two particles with the same nonzero resolutions, the one that is no
    farther from the measurement in range and in bearing gets no smaller a
    likelihood. *)
Theorem measurement_prob_favours_the_closer_particle (near far : Particle)
    (measurement : Measurement.t) :
  range_resolution near ≠ 0 → angular_resolution near ≠ 0 →
  range_resolution far = range_resolution near →
  angular_resolution far = angular_resolution near →
  Rabs (Measurement.surface_range measurement - surface_range near)
  <= Rabs (Measurement.surface_range measurement - surface_range far) →
  Rabs (Measurement.hor_angle measurement - hor_angle near)
  <= Rabs (Measurement.hor_angle measurement - hor_angle far) →
  ∃ v_near v_far,
    measurement_prob near measurement = Ok v_near ∧
    measurement_prob far measurement = Ok v_far ∧ v_far <= v_near.
Proof.
  intros Hr Ha Hsr Hsa Hdr Hda.
  exists (likelihood near measurement), (likelihood far measurement).
  split; [apply measurement_prob_ok; split; assumption |].
  split; [apply measurement_prob_ok; split; congruence |].
  unfold likelihood. rewrite Hsr, Hsa.
  pose proof (gaussian_value_monotone _ _ _ _ Hr Hdr) as H1.
  pose proof (gaussian_value_monotone _ _ _ _ Ha Hda) as H2.
  pose proof (gaussian_value_le_1 (Measurement.surface_range measurement)
                (range_resolution near) (surface_range far) Hr).
  pose proof (gaussian_value_le_1 (Measurement.hor_angle measurement)
                (angular_resolution near) (hor_angle far) Ha).
  pose proof (gaussian_value_le_1 (Measurement.surface_range measurement)
                (range_resolution near) (surface_range near) Hr).
  pose proof (gaussian_value_le_1 (Measurement.hor_angle measurement)
                (angular_resolution near) (hor_angle near) Ha).
  apply Rmult_le_compat; lra.
Qed.

Lemma measurement_prob_favours_the_closer_particle_witness :
  ∃ v_near v_far,
    measurement_prob (mkParticle 49 11 10 1 (1 / 2) (3 / 2))
                     (Measurement.make 48 12) = Ok v_near ∧
    measurement_prob (mkParticle 50 10 10 1 (1 / 2) (3 / 2))
                     (Measurement.make 48 12) = Ok v_far ∧ v_far <= v_near.
Proof.
  apply (measurement_prob_favours_the_closer_particle
           (mkParticle 49 11 10 1 (1 / 2) (3 / 2))
           (mkParticle 50 10 10 1 (1 / 2) (3 / 2)) (Measurement.make 48 12));
    cbn; try lra; try reflexivity.
  - replace (48 - 49) with (-1) by lra. replace (48 - 50) with (-2) by lra.
    rewrite !Rabs_left by lra. lra.
  - replace (12 - 11) with 1 by lra. replace (12 - 10) with 2 by lra.
    rewrite !Rabs_right by lra. lra.
Defined.

(** ** The weights [get_weights] returns *)







Lemma fold_left_Rmax_Permutation (l l' : list R) :
  l ≡ₚ l' → ∀ w, fold_left Rmax l w = fold_left Rmax l' w.
Proof.
  induction 1 as [| x l l' _ IH | x y l | l l' l'' _ IH1 _ IH2]; intros w; cbn.
  - reflexivity.
  - apply IH.
  - f_equal. rewrite <- !Rmax_assoc. f_equal. apply Rmax_comm.
  - rewrite IH1. apply IH2.
Qed.

Lemma measurement_prob_unresolved (self : Particle) (m : Measurement.t) :
  ¬ resolved self → measurement_prob self m = Raise ZeroDivisionError.
Proof.
  intros Hnot. unfold measurement_prob.
  destruct (Req_dec_T (range_resolution self) 0) as [Hr | Hr].
  - rewrite Hr, _gaussian_zero_sigma. reflexivity.
  - rewrite (_gaussian_ok _ (range_resolution self)) by exact Hr.
    rewrite bind_Ok.
    destruct (Req_dec_T (angular_resolution self) 0) as [Ha | Ha].
    + rewrite Ha, _gaussian_zero_sigma. reflexivity.
    + exfalso. apply Hnot. split; assumption.
Qed.

Lemma resolved_dec (self : Particle) : resolved self ∨ ¬ resolved self.
Proof.
  unfold resolved.
  destruct (Req_dec_T (range_resolution self) 0);
    destruct (Req_dec_T (angular_resolution self) 0); tauto.
Qed.

Lemma best_weight_Permutation (self : Particle) (ms ms' : list Measurement.t)
    (w : R) :
  ms ≡ₚ ms' → best_weight self ms w = best_weight self ms' w.
Proof.
  intros Hperm. destruct (resolved_dec self) as [Hres | Hnot].
  - rewrite !best_weight_ok by exact Hres. f_equal.
    apply fold_left_Rmax_Permutation. apply fmap_Permutation. exact Hperm.
  - destruct ms as [| m ms].
    + apply Permutation_nil_l in Hperm. subst ms'. reflexivity.
    + destruct ms' as [| m' ms'].
      * apply Permutation_nil_r in Hperm. discriminate.
      * cbn. rewrite !measurement_prob_unresolved by exact Hnot. reflexivity.
Qed.

(** X4.  The order of the measurements does not matter to [get_weights]: listed in
    another order they give the same weights, or the same error. *)
Theorem get_weights_ignores_measurement_order (particles : list Particle)
    (measurements measurements' : list Measurement.t) :
  measurements ≡ₚ measurements' →
  get_weights particles measurements = get_weights particles measurements'.
Proof.
  intros Hperm. unfold get_weights. generalize (@nil R).
  induction particles as [| self ps IH]; intros acc; cbn; [reflexivity |].
  rewrite (best_weight_Permutation self _ _ 0 Hperm).
  destruct (best_weight self measurements' 0); cbn; [apply IH | reflexivity | reflexivity].
Qed.

Lemma get_weights_ignores_measurement_order_witness :
  get_weights [mkParticle 50 10 10 1 (1 / 2) (3 / 2)]
              [Measurement.make 48 12; Measurement.make 51 9]
  = get_weights [mkParticle 50 10 10 1 (1 / 2) (3 / 2)]
                [Measurement.make 51 9; Measurement.make 48 12].
Proof.
  apply (get_weights_ignores_measurement_order
           [mkParticle 50 10 10 1 (1 / 2) (3 / 2)]
           [Measurement.make 48 12; Measurement.make 51 9]
           [Measurement.make 51 9; Measurement.make 48 12]).
  apply Permutation_swap.
Defined.

(** ** Resampling: errors and selection *)

(** X5.  Without a weight [max] raises [ValueError], whatever the particles; with
    weights but no particle the result is the empty list. *)
Theorem resample_particles_on_empty_lists {A : Type} (fuel : nat)
    (old_particles : list A) (weights : list R) (g : rng) :
  resample_particles fuel old_particles [] g = Raise ValueError ∧
  (weights ≠ [] → resample_particles fuel (@nil A) weights g = Ok []).
Proof.
  split; [reflexivity |].
  intros Hne. destruct weights as [| w ws]; [contradiction | reflexivity].
Qed.

Lemma py_get_out_of_range {A : Type} (l : list A) (i : nat) :
  (length l <= i)%nat → py_get l (Z.of_nat i) = Raise IndexError.
Proof.
  intros Hi. unfold py_get.
  destruct (Z.ltb_spec (Z.of_nat i) 0) as [Hneg | _]; [lia |].
  destruct (Z.ltb_spec (Z.of_nat i) (Z.of_nat (length l))) as [Hlt | _]; [lia |].
  rewrite andb_false_r. reflexivity.
Qed.

(** X6.  With fewer weights than particles, [resample_particles] raises
    [IndexError] when the index first drawn has no weight. *)
Theorem resample_particles_with_too_few_weights {A : Type} (fuel : nat)
    (old_particles : list A) (weights : list R) (g : rng) (i : nat) :
  old_particles ≠ [] → weights ≠ [] →
  py_int (g 0%nat * IZR (Z.of_nat (length old_particles))) = Z.of_nat i →
  (length weights <= i)%nat →
  resample_particles (S fuel) old_particles weights g = Raise IndexError.
Proof.
  intros Hold Hw Hindex Hi. unfold resample_particles.
  destruct weights as [| w ws]; [contradiction |]. cbn [py_max]. rewrite bind_Ok.
  cbn [random]. rewrite Hindex.
  destruct old_particles as [| a old]; [contradiction |].
  cbn [length draws random wheel].
  rewrite (py_get_out_of_range (w :: ws) i Hi). reflexivity.
Qed.

Lemma resample_particles_with_too_few_weights_witness :
  resample_particles 1 [7; 8]%nat [1] (λ _, 1 / 2) = Raise IndexError.
Proof.
  apply (resample_particles_with_too_few_weights 0 [7; 8]%nat [1]
           (λ _, 1 / 2) 1%nat).
  - discriminate.
  - discriminate.
  - change (Z.of_nat (length [7; 8]%nat)) with 2%Z.
    replace (1 / 2 * 2) with 1 by lra. unfold py_int.
    destruct (Rle_dec 0 1) as [_ | Hneg]; [| lra].
    symmetry. apply Int_part_spec. change (Z.of_nat 1) with 1%Z. lra.
  - cbn. lia.
Defined.

(** The position [l[i]] reads. *)
Lemma py_get_position {A : Type} (l : list A) (i : Z) (a : A) :
  py_get l i = Ok a →
  l !! Z.to_nat (if (i <? 0)%Z then (i + Z.of_nat (length l))%Z else i) = Some a.
Proof.
  unfold py_get. cbv zeta. intros Hget.
  destruct ((0 <=? _)%Z && _); [| discriminate].
  destruct (l !! _) as [b |] eqn:Hk; [| discriminate].
  injection Hget as ->. reflexivity.
Qed.

(** Entered with a positive [beta], the loop is left at an index whose weight
    is at least the [beta] left, itself positive. *)
Lemma wheel_stops_on_weight (weights : list R) (n : Z) (fuel : nat) :
  ∀ (beta : R) (index : Z) (beta' : R) (index' : Z),
    wheel fuel weights n beta index = Ok (beta', index') → 0 < beta →
    ∃ w, py_get weights index' = Ok w ∧ 0 < beta' <= w.
Proof.
  induction fuel as [| fuel IH]; intros beta index beta' index' Hrun Hbeta;
    [discriminate |].
  cbn in Hrun. destruct (py_get weights index) as [w | e |] eqn:Hw;
    cbn in Hrun; try discriminate.
  destruct (Rgt_dec beta w) as [Hgt | Hle].
  - destruct (py_mod (index + 1) n) as [index1 | e |]; cbn in Hrun;
      try discriminate.
    apply (IH _ _ _ _ Hrun). lra.
  - injection Hrun as <- <-. exists w. split; [exact Hw | lra].
Qed.

Section Selection.
Context {A : Type}.
Variables (old : list A) (weights : list R).
Hypothesis same_length : length weights = length old.

(** What a slot of the result holds: the particle of an index whose weight is
    positive. *)
Let chosen (x : A) : Prop :=
  ∃ k w, old !! k = Some x ∧ weights !! k = Some w ∧ 0 < w.

Lemma draws_choose_positive_weights (fuel : nat) (n : Z) (max_weight : R)
    (count : nat) :
  0 < max_weight →
  ∀ (g : rng) (beta : R) (index : Z) (acc out : list A),
    draws fuel old weights n max_weight count g beta index acc = Ok out →
    (∀ k, 0 < g k) → 0 <= beta →
    Forall chosen acc → Forall chosen out.
Proof.
  intros Hmax.
  induction count as [| count IH]; intros g beta index acc out Hrun Hg Hbeta Hacc;
    cbn in Hrun.
  - injection Hrun as <-. exact Hacc.
  - apply bind_Ok_inv in Hrun. destruct Hrun as [[beta' index'] [Hwheel Hrun]].
    apply bind_Ok_inv in Hrun. destruct Hrun as [particle [Hget Hrun]].
    assert (Hentry : 0 < beta + g 0%nat * 2 * max_weight).
    { pose proof (Hg 0%nat). nra. }
    destruct (wheel_stops_on_weight _ _ _ _ _ _ _ Hwheel Hentry)
      as [w [Hw [Hpos Hle]]].
    apply py_get_position in Hw. apply py_get_position in Hget.
    rewrite same_length in Hw.
    apply (IH _ _ _ _ _ Hrun); [intros k; apply Hg | lra |].
    apply Forall_app. split; [exact Hacc |].
    constructor; [| constructor]. eexists _, w.
    split; [exact Hget |]. split; [exact Hw | lra].
Qed.
End Selection.

Lemma py_max_ge (weights : list R) (max_weight w : R) :
  py_max weights = Ok max_weight → In w weights → w <= max_weight.
Proof.
  destruct weights as [| x rest]; [discriminate |]. cbn.
  intros Hmax [-> | Hin]; injection Hmax as <-.
  - apply fold_left_Rmax_init.
  - apply fold_left_Rmax_elem, Hin.
Qed.

Lemma resample_chooses_positive_weights {A : Type} (fuel : nat)
    (old : list A) (weights : list R) (g : rng) (out : list A) :
  length weights = length old → Exists (λ w, 0 < w) weights →
  (∀ k, 0 < g (S k)) →
  resample_particles fuel old weights g = Ok out →
  Forall (λ x, ∃ k w, old !! k = Some x ∧ weights !! k = Some w ∧ 0 < w) out.
Proof.
  intros Hlen Hex Hg Hrun. unfold resample_particles in Hrun.
  apply bind_Ok_inv in Hrun. destruct Hrun as [max_weight [Hmax Hrun]].
  cbn [random] in Hrun.
  assert (Hpos : 0 < max_weight).
  { apply Exists_exists in Hex. destruct Hex as [w [Hin Hw]].
    apply list_elem_of_In in Hin.
    pose proof (py_max_ge _ _ _ Hmax Hin). lra. }
  eapply (draws_choose_positive_weights old weights Hlen);
    [exact Hpos | exact Hrun | exact Hg | lra | constructor].
Qed.

(** X7.  With draws of [random.random()] in (0, 1) for the steps of [beta] and a
    positive weight somewhere, [resample_particles] returns a list, and every
    slot of it holds the particle of an index whose weight is positive: a
    particle of weight 0 is never kept. *)
Theorem resample_particles_keeps_only_weighted_particles {A : Type}
    (old_particles : list A) (weights : list R) (g : rng) :
  old_particles ≠ [] → length weights = length old_particles →
  Forall (λ w, 0 <= w) weights → Exists (λ w, 0 < w) weights →
  0 <= g 0%nat < 1 → (∀ k, 0 < g (S k) < 1) →
  ∃ fuel new_particles,
    resample_particles fuel old_particles weights g = Ok new_particles ∧
    ∀ j x, new_particles !! j = Some x →
      ∃ k w, old_particles !! k = Some x ∧ weights !! k = Some w ∧ 0 < w.
Proof.
  intros Hne Hlen Hnn Hex Hg0 Hg.
  assert (Hall : ∀ k, 0 <= g k < 1).
  { intros [| k]; [exact Hg0 |]. pose proof (Hg k). lra. }
  destruct (resample_returns old_particles weights g Hne Hlen Hnn Hall)
    as [fuel [out Hrun]].
  exists fuel, out. split; [apply Hrun; lia |].
  intros j x Hj.
  pose proof (resample_chooses_positive_weights fuel old_particles weights g
                out Hlen Hex (λ k, proj1 (Hg k)) (Hrun fuel (le_n _))) as Hchosen.
  rewrite Forall_forall in Hchosen. apply Hchosen.
  eapply list_elem_of_lookup_2. exact Hj.
Qed.

Lemma resample_particles_keeps_only_weighted_particles_witness :
  ∃ fuel new_particles,
    resample_particles fuel [7; 8; 9]%nat [0; 0; 1] (λ _, 1 / 2)
    = Ok new_particles ∧
    ∀ j x, new_particles !! j = Some x →
      ∃ k w, [7; 8; 9]%nat !! k = Some x ∧ [0; 0; 1] !! k = Some w ∧ 0 < w.
Proof.
  apply (resample_particles_keeps_only_weighted_particles [7; 8; 9]%nat
           [0; 0; 1] (λ _, 1 / 2)).
  - discriminate.
  - reflexivity.
  - repeat constructor; lra.
  - apply Exists_cons_tl, Exists_cons_tl, Exists_cons_hd. lra.
  - lra.
  - intros k. lra.
Defined.

(** X8.  When one particle alone has a positive weight, with the same draws, the
    whole result is that particle. *)
Theorem resample_particles_follows_the_only_weight {A : Type}
    (old_particles : list A) (weights : list R) (g : rng) (k : nat) (w : R)
    (particle : A) :
  length weights = length old_particles →
  old_particles !! k = Some particle → weights !! k = Some w → 0 < w →
  (∀ j v, j ≠ k → weights !! j = Some v → v = 0) →
  0 <= g 0%nat < 1 → (∀ i, 0 < g (S i) < 1) →
  ∃ fuel, resample_particles fuel old_particles weights g
          = Ok (replicate (length old_particles) particle).
Proof.
  intros Hlen Hk Hwk Hw Hothers Hg0 Hg.
  assert (Hne : old_particles ≠ []) by (intros ->; discriminate).
  assert (Hnn : Forall (λ v, 0 <= v) weights).
  { apply Forall_lookup_2. intros j v Hjv.
    destruct (decide (j = k)) as [-> | Hjk].
    - rewrite Hwk in Hjv. injection Hjv as <-. lra.
    - rewrite (Hothers j v Hjk Hjv). lra. }
  assert (Hex : Exists (λ v, 0 < v) weights).
  { apply Exists_exists. exists w. split; [| exact Hw].
    eapply list_elem_of_lookup_2. exact Hwk. }
  assert (Hall : ∀ i, 0 <= g i < 1).
  { intros [| i]; [exact Hg0 |]. pose proof (Hg i). lra. }
  destruct (resample_returns old_particles weights g Hne Hlen Hnn Hall)
    as [fuel [out Hrun]].
  exists fuel. rewrite (Hrun fuel (le_n _)). f_equal.
  pose proof (resample_chooses_positive_weights fuel old_particles weights g
                out Hlen Hex (λ i, proj1 (Hg i)) (Hrun fuel (le_n _))) as Hchosen.
  pose proof (resample_length _ _ _ _ _ (Hrun fuel (le_n _))) as Hsize.
  rewrite <- Hsize. symmetry. apply replicate_as_Forall_2.
  - reflexivity.
  - eapply Forall_impl; [exact Hchosen |]. cbn.
    intros x [j [v [Hj [Hv Hpos]]]].
    destruct (decide (j = k)) as [-> | Hjk].
    + congruence.
    + rewrite (Hothers j v Hjk Hv) in Hpos. lra.
Qed.

Lemma resample_particles_follows_the_only_weight_witness :
  ∃ fuel, resample_particles fuel [7; 8; 9]%nat [0; 0; 1] (λ _, 1 / 2)
          = Ok (replicate 3 9%nat).
Proof.
  apply (resample_particles_follows_the_only_weight [7; 8; 9]%nat [0; 0; 1]
           (λ _, 1 / 2) 2%nat 1 9%nat).
  - reflexivity.
  - reflexivity.
  - reflexivity.
  - lra.
  - intros [| [| [| j]]] v Hj Hv; cbn in Hv; try discriminate;
      try (injection Hv as <-; reflexivity). contradiction.
  - lra.
  - intros i. lra.
Defined.

(** ** Motion: what [move] keeps *)


Section StandingStill.
Context `{trig.ops}.
Hypothesis pythagoras : ∀ t, trig.sind t ^ 2 + trig.cosd t ^ 2 = 1.
Hypothesis no_distance : ∀ lat lon, trig.distance lat lon lat lon = 0.

(** Without noise and with the sensor at the same place, [move] computes the
    new state from the target position alone. *)
Lemma move_standing_still (self : Particle) (last curr : SensorPosition.t)
    (z : deviates) :
  gps_noise self = 0 → compass_noise self = 0 →
  SensorPosition.lat curr = SensorPosition.lat last →
  SensorPosition.lon curr = SensorPosition.lon last →
  0 <= surface_range self →
  let t := SensorPosition.heading last - hor_angle self in
  let b := trig.atan2d (surface_range self * trig.sind t)
                       (surface_range self * trig.cosd t) in
  move self last curr z
  = Ok {| surface_range := surface_range self;
          hor_angle := SensorPosition.heading curr
                       - (if Rlt_dec b 0 then b + 360 else b);
          gps_noise := gps_noise self;
          compass_noise := compass_noise self;
          range_resolution := range_resolution self;
          angular_resolution := angular_resolution self |}.
Proof.
  intros Hgps Hcompass Hlat Hlon Hrange t b. unfold move, gauss. cbv zeta.
  rewrite Hgps, Hcompass, Hlat, Hlon.
  rewrite !Rmult_0_r, !Rplus_0_r. rewrite no_distance.
  rewrite !Rmult_0_l, !Rminus_0_r. fold t. fold b.
  assert (Hsq : (surface_range self * trig.sind t) ^ 2
                + (surface_range self * trig.cosd t) ^ 2
                = surface_range self ^ 2).
  { pose proof (pythagoras t) as Hp.
    replace ((surface_range self * trig.sind t) ^ 2
             + (surface_range self * trig.cosd t) ^ 2)
      with (surface_range self ^ 2 * (trig.sind t ^ 2 + trig.cosd t ^ 2))
      by ring.
    rewrite Hp. ring. }
  rewrite Hsq. rewrite math_sqrt_ok by (apply pow2_ge_0).
  rewrite bind_Ok, sqrt_pow2 by exact Hrange. reflexivity.
Qed.
End StandingStill.

(** X10.  When the sensor stays at the same place and there is no noise, [move]
    leaves the range as it is, for any functions of [trig] whose sine and
    cosine have squares of sum 1 and whose distance from a point to itself
    is 0. *)
Theorem move_standing_still_keeps_range `{trig.ops} (self : Particle)
    (last_position curr_position : SensorPosition.t) (z : deviates) :
  (∀ t, trig.sind t ^ 2 + trig.cosd t ^ 2 = 1) →
  (∀ lat lon, trig.distance lat lon lat lon = 0) →
  gps_noise self = 0 → compass_noise self = 0 →
  SensorPosition.lat curr_position = SensorPosition.lat last_position →
  SensorPosition.lon curr_position = SensorPosition.lon last_position →
  0 <= surface_range self →
  ∃ self', move self last_position curr_position z = Ok self' ∧
           surface_range self' = surface_range self.
Proof.
  intros Hp Hd Hgps Hcompass Hlat Hlon Hrange.
  eexists. split.
  - apply (move_standing_still Hp Hd); assumption.
  - reflexivity.
Qed.

Lemma degree_pythagoras (t : R) :
  @trig.sind degree_angles t ^ 2 + @trig.cosd degree_angles t ^ 2 = 1.
Proof.
  cbn [trig.sind trig.cosd degree_angles].
  pose proof (sin2_cos2 (radians t)) as Hp. unfold Rsqr in Hp.
  rewrite <- Hp. ring.
Qed.

Lemma degree_no_distance (lat lon : R) :
  @trig.distance degree_trig lat lon lat lon = 0.
Proof. apply (@geo_distance_same_point degree_angles). Qed.

Lemma tan_of_quotient (r s c : R) : 0 < r → c ≠ 0 → r * s / (r * c) = s / c.
Proof. intros Hr Hc. field. split; lra. Qed.

(** [atan2] gives back the angle of a point in polar coordinates. *)
Lemma atan2_polar (r a : R) :
  0 < r → - PI < a <= PI → atan2 (r * sin a) (r * cos a) = a.
Proof.
  intros Hr [Hlo Hhi]. pose proof PI_RGT_0 as Hpi. unfold atan2.
  destruct (Rlt_dec a (- (PI / 2))) as [Hq3 | Hq3].
  - (* third quadrant *)
    set (b := a + PI).
    assert (Hb : 0 < b < PI / 2) by (unfold b; lra).
    assert (Hsin : sin a = - sin b)
      by (unfold b; rewrite neg_sin; lra).
    assert (Hcos : cos a = - cos b)
      by (unfold b; rewrite neg_cos; lra).
    assert (0 < sin b) by (apply sin_gt_0; lra).
    assert (0 < cos b) by (apply cos_gt_0; lra).
    rewrite Hsin, Hcos.
    destruct (Rlt_dec 0 (r * - cos b)); [nra |].
    destruct (Rlt_dec (r * - cos b) 0); [| nra].
    destruct (Rle_dec 0 (r * - sin b)); [nra |].
    rewrite tan_of_quotient by lra.
    replace (- sin b / - cos b) with (tan b) by (unfold tan; field; lra).
    rewrite atan_tan by lra. unfold b. lra.
  - destruct (Req_dec_T a (- (PI / 2))) as [-> | Hne1].
    + rewrite cos_neg, sin_neg, cos_PI2, sin_PI2.
      destruct (Rlt_dec 0 (r * 0)); [lra |].
      destruct (Rlt_dec (r * 0) 0); [lra |].
      destruct (Rlt_dec 0 (r * - (1))); [lra |].
      destruct (Rlt_dec (r * - (1)) 0); lra.
    + destruct (Rlt_dec a (PI / 2)) as [Hq14 | Hq14].
      * (* right half plane *)
        assert (0 < cos a) by (apply cos_gt_0; lra).
        destruct (Rlt_dec 0 (r * cos a)); [| nra].
        rewrite tan_of_quotient by lra.
        change (sin a / cos a) with (tan a). apply atan_tan. lra.
      * destruct (Req_dec_T a (PI / 2)) as [-> | Hne2].
        -- rewrite cos_PI2, sin_PI2.
           destruct (Rlt_dec 0 (r * 0)); [lra |].
           destruct (Rlt_dec (r * 0) 0); [lra |].
           destruct (Rlt_dec 0 (r * 1)); lra.
        -- (* second quadrant *)
           set (b := a - PI).
           assert (Hb : - (PI / 2) < b <= 0) by (unfold b; lra).
           assert (Hsin : sin a = - sin b).
           { replace a with (b + PI) by (unfold b; lra). apply neg_sin. }
           assert (Hcos : cos a = - cos b).
           { replace a with (b + PI) by (unfold b; lra). apply neg_cos. }
           assert (0 < cos b) by (apply cos_gt_0; lra).
           assert (sin b <= 0).
           { destruct (Req_dec_T b 0) as [-> | Hb0]; [rewrite sin_0; lra |].
             left. apply sin_lt_0_var; lra. }
           rewrite Hsin, Hcos.
           destruct (Rlt_dec 0 (r * - cos b)); [nra |].
           destruct (Rlt_dec (r * - cos b) 0); [| nra].
           destruct (Rle_dec 0 (r * - sin b)); [| nra].
           rewrite tan_of_quotient by lra.
           replace (- sin b / - cos b) with (tan b) by (unfold tan; field; lra).
           rewrite atan_tan by lra. unfold b. lra.
Qed.

Lemma degree_atan2d_polar (r t : R) :
  0 < r → -180 < t <= 180 →
  @trig.atan2d degree_angles (r * @trig.sind degree_angles t)
                             (r * @trig.cosd degree_angles t) = t.
Proof.
  intros Hr Ht. cbn [trig.sind trig.cosd trig.atan2d degree_angles].
  pose proof PI_RGT_0 as Hpi.
  rewrite atan2_polar; [unfold degrees, radians; field; lra | exact Hr |].
  unfold radians. split.
  - apply Rmult_lt_reg_r with (180 / PI).
    + apply Rdiv_lt_0_compat; lra.
    + replace (- PI * (180 / PI)) with (-180) by (field; lra).
      replace (t * PI / 180 * (180 / PI)) with t by (field; lra). lra.
  - apply Rmult_le_reg_r with (180 / PI).
    + apply Rdiv_lt_0_compat; lra.
    + replace (PI * (180 / PI)) with 180 by (field; lra).
      replace (t * PI / 180 * (180 / PI)) with t by (field; lra). lra.
Qed.

Lemma move_standing_still_keeps_range_witness :
  ∃ self', @move degree_trig (mkParticle 100 20 0 0 (1 / 2) (3 / 2))
             (SensorPosition.make 3 4 10) (SensorPosition.make 3 4 10)
             (mkDeviates 1 2 3 4 5 6) = Ok self' ∧
           surface_range self' = 100.
Proof.
  apply (@move_standing_still_keeps_range degree_trig
           (mkParticle 100 20 0 0 (1 / 2) (3 / 2))
           (SensorPosition.make 3 4 10) (SensorPosition.make 3 4 10)
           (mkDeviates 1 2 3 4 5 6)).
  - exact degree_pythagoras.
  - exact degree_no_distance.
  - reflexivity.
  - reflexivity.
  - reflexivity.
  - reflexivity.
  - cbn. lra.
Defined.

(** X11.  With the degree-based functions, no noise and the sensor turning on the
    spot, [move] shifts the bearing by the turn when the target bearing
    [last heading - bearing] is in [0, 180], and by the turn minus 360 when it
    is in (-180, 0): a sensor that does not move at all leaves the bearing
    unchanged in the first case only. *)
Theorem move_turning_on_the_spot (self : Particle)
    (last_position curr_position : SensorPosition.t) (z : deviates) :
  gps_noise self = 0 → compass_noise self = 0 →
  SensorPosition.lat curr_position = SensorPosition.lat last_position →
  SensorPosition.lon curr_position = SensorPosition.lon last_position →
  0 < surface_range self →
  let t := SensorPosition.heading last_position - hor_angle self in
  let turn := SensorPosition.heading curr_position
              - SensorPosition.heading last_position in
  -180 < t <= 180 →
  ∃ self', @move degree_trig self last_position curr_position z = Ok self' ∧
    surface_range self' = surface_range self ∧
    (0 <= t → hor_angle self' = hor_angle self + turn) ∧
    (t < 0 → hor_angle self' = hor_angle self + turn - 360).
Proof.
  intros Hgps Hcompass Hlat Hlon Hrange t turn Ht.
  eexists. split.
  - apply (@move_standing_still degree_trig degree_pythagoras
             degree_no_distance); try assumption. lra.
  - cbn [surface_range hor_angle]. split; [reflexivity |].
    fold t. change (@trig.ops_angles degree_trig) with degree_angles.
    rewrite (degree_atan2d_polar _ t Hrange Ht).
    unfold turn, t in *.
    destruct (Rlt_dec (SensorPosition.heading last_position - hor_angle self) 0);
      split; intros; lra.
Qed.

Lemma move_turning_on_the_spot_witness :
  ∃ self', @move degree_trig (mkParticle 100 20 0 0 (1 / 2) (3 / 2))
             (SensorPosition.make 3 4 0) (SensorPosition.make 3 4 0)
             (mkDeviates 1 2 3 4 5 6) = Ok self' ∧
    surface_range self' = 100 ∧
    (0 <= 0 - 20 → hor_angle self' = 20 + (0 - 0)) ∧
    (0 - 20 < 0 → hor_angle self' = 20 + (0 - 0) - 360).
Proof.
  apply (move_turning_on_the_spot (mkParticle 100 20 0 0 (1 / 2) (3 / 2))
           (SensorPosition.make 3 4 0) (SensorPosition.make 3 4 0)
           (mkDeviates 1 2 3 4 5 6)); try reflexivity; cbn; lra.
Defined.

(** ** Positions for the plot *)

(** X12.  [get_particle_positions] returns one abscissa and one ordinate per
    particle, in the order of the particles, and the point they make is at the
    particle's range from the origin, for any sine and cosine whose squares
    have sum 1. *)
Theorem get_particle_positions_on_the_range_circle `{trig.ops}
    (particles : list Particle) :
  (∀ t, trig.sind t ^ 2 + trig.cosd t ^ 2 = 1) →
  let '(xs, ys) := get_particle_positions particles in
  length xs = length particles ∧ length ys = length particles ∧
  ∀ (i : nat) (p : Particle), particles !! i = Some p →
    ∃ x y, xs !! i = Some x ∧ ys !! i = Some y ∧
           x ^ 2 + y ^ 2 = surface_range p ^ 2.
Proof.
  intros Hp. unfold get_particle_positions. cbv zeta.
  split; [apply length_fmap |]. split; [apply length_fmap |].
  intros i p Hi.
  exists (surface_range p * trig.sind (hor_angle p)),
         (surface_range p * trig.cosd (hor_angle p)).
  rewrite !list_lookup_fmap, Hi.
  split; [reflexivity |]. split; [reflexivity |].
  pose proof (Hp (hor_angle p)) as Hpy.
  replace ((surface_range p * trig.sind (hor_angle p)) ^ 2
           + (surface_range p * trig.cosd (hor_angle p)) ^ 2)
    with (surface_range p ^ 2
          * (trig.sind (hor_angle p) ^ 2 + trig.cosd (hor_angle p) ^ 2))
    by ring.
  rewrite Hpy. ring.
Qed.

Lemma get_particle_positions_on_the_range_circle_witness :
  let '(xs, ys) :=
    @get_particle_positions degree_trig [mkParticle 100 20 10 1 (1 / 2) (3 / 2)] in
  length xs = 1%nat ∧ length ys = 1%nat ∧
  ∀ (i : nat) (p : Particle),
    [mkParticle 100 20 10 1 (1 / 2) (3 / 2)] !! i = Some p →
    ∃ x y, xs !! i = Some x ∧ ys !! i = Some y ∧
           x ^ 2 + y ^ 2 = surface_range p ^ 2.
Proof.
  apply (@get_particle_positions_on_the_range_circle degree_trig
           [mkParticle 100 20 10 1 (1 / 2) (3 / 2)]).
  exact degree_pythagoras.
Defined.

(** ** Geography *)

(** X13.  [geo.distance] does not depend on the order of the two points. *)
Theorem geo_distance_symmetric `{trig.angles} (lat1 lon1 lat2 lon2 : R) :
  geo.distance lat1 lon1 lat2 lon2 = geo.distance lat2 lon2 lat1 lon1.
Proof.
  unfold geo.distance. cbv zeta.
  assert (Hsin : ∀ a b, sin (radians (a - b) * (1 / 2)) ^ 2
                        = sin (radians (b - a) * (1 / 2)) ^ 2).
  { intros a b.
    replace (radians (a - b) * (1 / 2)) with (- (radians (b - a) * (1 / 2)))
      by (unfold radians; lra).
    rewrite sin_neg. ring. }
  rewrite (Hsin lat1 lat2), (Hsin lon1 lon2).
  rewrite (Rmult_comm (trig.cosd lat1)). reflexivity.
Qed.

(** The haversine [geo.distance] takes the square root of is in [0, 1]. *)
Lemma haversine_in_unit_interval (lat1 lon1 lat2 lon2 : R) :
  0 <= sin (radians (lat1 - lat2) * (1 / 2)) ^ 2
       + cos (radians lat1) * cos (radians lat2)
         * sin (radians (lon1 - lon2) * (1 / 2)) ^ 2 <= 1.
Proof.
  set (a := radians (lat1 - lat2) * (1 / 2)).
  set (b := radians (lon1 - lon2) * (1 / 2)).
  set (x := radians lat1). set (y := radians lat2).
  assert (Hxy : x - y = 2 * a) by (unfold x, y, a, radians; lra).
  pose proof (cos_minus x y) as Hm. pose proof (cos_plus x y) as Hpl.
  rewrite Hxy, cos_2a_sin in Hm.
  pose proof (COS_bound (x + y)) as [Hc1 Hc2].
  pose proof (SIN_bound a) as [Ha1 Ha2].
  pose proof (SIN_bound b) as [Hb1 Hb2].
  set (A := sin a ^ 2). set (S := sin b ^ 2).
  assert (HA : 0 <= A <= 1) by (unfold A; nra).
  assert (HS : 0 <= S <= 1) by (unfold S; nra).
  assert (Hcc : - A <= cos x * cos y <= 1 - A) by (unfold A; nra).
  nra.
Qed.

(** X14.  With the cosine in degrees for [trig.cosd], [geo.distance] raises neither
    in [math.sqrt] nor in [math.asin]; the distance it returns is at least 0
    and at most half the circumference of the sphere. *)
Theorem geo_distance_is_safe (lat1 lon1 lat2 lon2 : R) :
  ∃ d, @distance_checked degree_angles lat1 lon1 lat2 lon2 = Ok d ∧
       d = @geo.distance degree_angles lat1 lon1 lat2 lon2 ∧
       0 <= d <= PI * geo.EARTH_RADIUS.
Proof.
  pose proof (haversine_in_unit_interval lat1 lon1 lat2 lon2) as Hh.
  unfold distance_checked, geo.distance. cbv zeta.
  cbn [trig.cosd degree_angles].
  set (h := sin (radians (lat1 - lat2) * (1 / 2)) ^ 2
            + cos (radians lat1) * cos (radians lat2)
              * sin (radians (lon1 - lon2) * (1 / 2)) ^ 2) in *.
  assert (Hs : 0 <= sqrt h <= 1).
  { split; [apply sqrt_pos |]. rewrite <- sqrt_1. apply sqrt_le_1_alt. lra. }
  rewrite math_sqrt_ok by lra. rewrite bind_Ok.
  unfold math_asin.
  destruct (Rlt_dec (sqrt h) (-1)); [lra |].
  destruct (Rlt_dec 1 (sqrt h)); [lra |]. rewrite bind_Ok.
  eexists. split; [reflexivity |]. split; [reflexivity |].
  pose proof (asin_bound (sqrt h)) as [Hb1 Hb2].
  assert (Hnn : 0 <= asin (sqrt h)).
  { destruct (Rle_dec 0 (asin (sqrt h))) as [Hle | Hneg]; [exact Hle |].
    exfalso. pose proof PI_RGT_0.
    assert (sin (asin (sqrt h)) < 0) by (apply sin_lt_0_var; lra).
    rewrite sin_asin in * by lra. lra. }
  assert (HR : 0 < geo.EARTH_RADIUS) by (unfold geo.EARTH_RADIUS; lra).
  pose proof PI_RGT_0. split; nra.
Qed.


(** X16.  A degree of latitude is between 110571.957 and 111693.951 metres long
    according to [geo.lat_degree_len], for any cosine with values in
    [-1, 1]. *)
Theorem lat_degree_len_bounds `{trig.angles} (lat : R) :
  (∀ t, -1 <= trig.cosd t <= 1) →
  110571957 / 1000 <= lat_degree_len lat <= 111693951 / 1000.
Proof.
  intros Hcos. unfold lat_degree_len.
  pose proof (Hcos (2 * lat)). pose proof (Hcos (4 * lat)). lra.
Qed.

Lemma lat_degree_len_bounds_witness :
  110571957 / 1000 <= @lat_degree_len degree_angles 45 <= 111693951 / 1000.
Proof.
  apply (@lat_degree_len_bounds degree_angles 45).
  intros t. cbn. apply COS_bound.
Defined.

Lemma resample_zero_weights {A : Type} (old : list A) (weights : list R)
    (g : rng) :
  old ≠ [] → length weights = length old →
  Forall (λ w, w = 0) weights → 0 <= g 0%nat < 1 →
  ∃ (i : nat) (particle : A),
    py_int (g 0%nat * IZR (Z.of_nat (length old))) = Z.of_nat i ∧
    old !! i = Some particle ∧
    ∀ fuel, resample_particles (S fuel) old weights g
            = Ok (replicate (length old) particle).
Proof.
  intros Hne Hlen Hzero Hg.
  assert (Hpos : (0 < length old)%nat)
    by (destruct old; [contradiction | cbn; lia]).
  assert (Hwne : weights ≠ [])
    by (destruct weights; [cbn in Hlen; lia | discriminate]).
  destruct (py_int_in_range (g 0%nat) (length old) Hg Hpos) as [i [Hindex Hi]].
  destruct (lookup_lt_is_Some_2 old i Hi) as [particle Hparticle].
  exists i, particle. split; [exact Hindex |]. split; [exact Hparticle |].
  intros fuel. unfold resample_particles.
  rewrite (py_max_of_zeros weights Hwne Hzero), bind_Ok. cbn [random].
  rewrite Hindex.
  apply (draws_of_zero_weights old weights i particle fuel Hlen Hzero Hparticle).
Qed.

(** ** The loop of [main] *)

Lemma same_resolutions_refl (h : gmap nat Particle) : same_resolutions h h.
Proof. split; [reflexivity |]. intros r p Hr. exists p. auto. Qed.

Lemma same_resolutions_trans (h1 h2 h3 : gmap nat Particle) :
  same_resolutions h1 h2 → same_resolutions h2 h3 → same_resolutions h1 h3.
Proof.
  intros [Hd12 H12] [Hd23 H23]. split; [congruence |].
  intros r p3 Hr3. destruct (H23 r p3 Hr3) as [p2 [Hr2 [Hrr Hra]]].
  destruct (H12 r p2 Hr2) as [p1 [Hr1 [Hrr' Hra']]].
  exists p1. split; [exact Hr1 |]. split; congruence.
Qed.



Section PumpFacts.
Context `{trig.ops}.

Lemma move_at_returns (r : nat) (last curr : SensorPosition.t) (z : deviates)
    (h : gmap nat Particle) :
  ∃ h', move_at r last curr z h = Ok h' ∧ same_resolutions h h'.
Proof.
  unfold move_at. destruct (h !! r) as [self |] eqn:Hr.
  - destruct (move_returns self last curr z)
      as [self' [Hmove [_ [_ [_ [Hrr Hra]]]]]].
    rewrite Hmove, bind_Ok. eexists. split; [reflexivity |]. split.
    + apply dom_insert_lookup_L. eauto.
    + intros r' p' Hr'. destruct (decide (r' = r)) as [-> | Hne].
      * rewrite lookup_insert_eq in Hr'. injection Hr' as <-.
        exists self. auto.
      * rewrite lookup_insert_ne in Hr' by congruence. exists p'. auto.
  - exists h. split; [reflexivity | apply same_resolutions_refl].
Qed.

Lemma move_all_returns (particles : list nat) (last curr : SensorPosition.t) :
  ∀ (zs : noise) (h : gmap nat Particle),
    ∃ h', move_all particles last curr zs h = Ok h' ∧ same_resolutions h h'.
Proof.
  induction particles as [| r rest IH]; intros zs h; cbn.
  - exists h. split; [reflexivity | apply same_resolutions_refl].
  - destruct (move_at_returns r last curr (zs 0%nat) h) as [h1 [Hmove Hres1]].
    destruct (IH (λ k, zs (S k)) h1) as [h' [Hrest Hres2]].
    exists h'. rewrite Hmove, bind_Ok. split; [exact Hrest |].
    eapply same_resolutions_trans; eassumption.
Qed.


End PumpFacts.



Section PumpFrame.
Context `{trig.ops}.

Lemma pump_step_frame (fuel : nat) (feature_data : FeatureData.t) (zs : noise)
    (g : rng) (h h' : gmap nat Particle) (particles particles' : list nat)
    (last last' : option SensorPosition.t) :
  pump_step fuel feature_data zs g (h, particles, last)
  = Ok (h', particles', last') →
  dom h' = dom h ∧ (∀ r, r ∈ particles' → r ∈ particles) ∧ is_Some last'.
Proof.
  unfold pump_step. intros Hrun.
  apply bind_Ok_inv in Hrun. destruct Hrun as [h1 [Hmove Hrun]].
  apply bind_Ok_inv in Hrun. destruct Hrun as [ws [_ Hrun]].
  apply bind_Ok_inv in Hrun. destruct Hrun as [out [Hout Hrun]].
  injection Hrun as <- <- <-.
  split; [| split; [| eauto]].
  - destruct last as [lp |].
    + destruct (move_all_returns particles lp
                  (SensorPosition.make
                     (Position.lat (FeatureData.position feature_data))
                     (Position.lon (FeatureData.position feature_data))
                     (Heading.heading (FeatureData.heading feature_data)))
                  zs h) as [h2 [Hmove2 [Hdom _]]].
      rewrite Hmove in Hmove2. injection Hmove2 as <-. exact Hdom.
    + injection Hmove as <-. reflexivity.
  - intros r Hr. pose proof (resample_from_old _ _ _ _ _ Hout) as Hfrom.
    rewrite Forall_forall in Hfrom. destruct (Hfrom r Hr) as [k Hk].
    eapply list_elem_of_lookup_2. exact Hk.
Qed.
End PumpFrame.

(** X18.  The loop of [main] creates no particle: when it returns, the heap holds
    the objects it held, and every slot of the list of particles holds a
    reference the list held at the start.  The particle objects in use can
    only become fewer. *)
Theorem pump_creates_no_particle `{trig.ops} (fuel : nat)
    (steps : list (FeatureData.t * noise * rng))
    (h h' : gmap nat Particle) (particles particles' : list nat)
    (last_position last_position' : option SensorPosition.t) :
  pump fuel steps (h, particles, last_position)
  = Ok (h', particles', last_position') →
  dom h' = dom h ∧ ∀ r, r ∈ particles' → r ∈ particles.
Proof.
  revert h particles last_position.
  induction steps as [| [[feature_data zs] g] rest IH];
    intros h particles last_position Hrun; cbn in Hrun.
  - injection Hrun as <- <- <-. auto.
  - apply bind_Ok_inv in Hrun. destruct Hrun as [[[h1 ps1] last1] [Hstep Hrun]].
    apply pump_step_frame in Hstep. destruct Hstep as [Hdom1 [Hsub1 _]].
    apply IH in Hrun. destruct Hrun as [Hdom Hsub].
    split; [congruence | auto].
Qed.

Section PumpQuiet.
Context `{trig.ops}.

(** One turn of the loop on a feature data without cluster. *)
Lemma pump_step_without_cluster (feature_data : FeatureData.t) (zs : noise)
    (g : rng) (h : gmap nat Particle) (particles : list nat)
    (last : option SensorPosition.t) :
  FeatureData.filtered_mobile_clusters feature_data = [] →
  particles ≠ [] → 0 <= g 0%nat < 1 →
  ∃ (i r : nat) (h' : gmap nat Particle) (last' : option SensorPosition.t),
    py_int (g 0%nat * IZR (Z.of_nat (length particles))) = Z.of_nat i ∧
    particles !! i = Some r ∧
    ∀ fuel, pump_step (S fuel) feature_data zs g (h, particles, last)
            = Ok (h', replicate (length particles) r, last').
Proof.
  intros Hquiet Hne Hg.
  set (current := SensorPosition.make
                    (Position.lat (FeatureData.position feature_data))
                    (Position.lon (FeatureData.position feature_data))
                    (Heading.heading (FeatureData.heading feature_data))).
  assert (Hmoved : ∃ h', match last with
                         | Some lp => move_all particles lp current zs h
                         | None => Ok h
                         end = Ok h').
  { destruct last as [lp |]; [| eauto].
    destruct (move_all_returns particles lp current zs h) as [h' [Hm _]]. eauto. }
  destruct Hmoved as [h' Hmove].
  destruct (resample_zero_weights particles
              ((λ _, 0) <$> objects h' particles) g) as [i [r [Hi [Hr Hrun]]]].
  - exact Hne.
  - unfold objects. rewrite !length_fmap. reflexivity.
  - apply Forall_fmap, Forall_true. reflexivity.
  - exact Hg.
  - exists i, r, h', (Some current). split; [exact Hi |]. split; [exact Hr |].
    intros fuel. unfold pump_step. fold current.
    rewrite Hmove, bind_Ok. unfold get_measurements. rewrite Hquiet.
    unfold get_weights. cbn [fmap list_fmap].
    rewrite get_weights_from_no_measurement, bind_Ok. cbn [app].
    rewrite Hrun. reflexivity.
Qed.
End PumpQuiet.

Lemma pump_creates_no_particle_witness :
  ∃ h' particles' last_position',
    @pump degree_trig 1
      [(FeatureData.make (Position.make 0 0) (Heading.make 0) [],
        λ _, mkDeviates 0 0 0 0 0 0, λ _, 1 / 2)]
      (<[0%nat := mkParticle 50 10 10 1 (1 / 2) (3 / 2)]> ∅, [0%nat], None)
    = Ok (h', particles', last_position') ∧
    dom h' = dom (<[0%nat := mkParticle 50 10 10 1 (1 / 2) (3 / 2)]>
                    (∅ : gmap nat Particle)) ∧
    ∀ r, r ∈ particles' → r ∈ [0%nat].
Proof.
  destruct (@pump_step_without_cluster degree_trig
              (FeatureData.make (Position.make 0 0) (Heading.make 0) [])
              (λ _, mkDeviates 0 0 0 0 0 0) (λ _, 1 / 2)
              (<[0%nat := mkParticle 50 10 10 1 (1 / 2) (3 / 2)]> ∅)
              [0%nat] None)
    as [i [r [h' [last' [_ [_ Hstep]]]]]];
    [reflexivity | discriminate | lra |].
  assert (Hrun :
    @pump degree_trig 1
      [(FeatureData.make (Position.make 0 0) (Heading.make 0) [],
        λ _, mkDeviates 0 0 0 0 0 0, λ _, 1 / 2)]
      (<[0%nat := mkParticle 50 10 10 1 (1 / 2) (3 / 2)]> ∅, [0%nat], None)
    = Ok (h', replicate 1 r, last')).
  { cbn [pump]. rewrite (Hstep 0%nat). reflexivity. }
  exists h', (replicate 1 r), last'. split; [exact Hrun |].
  apply (@pump_creates_no_particle degree_trig 1 _ _ _ _ _ _ _ Hrun).
Defined.

(** X19.  A feature data without cluster gives every particle the weight 0, and
    the turn of the loop leaves the whole list on one particle: the one at
    the index first drawn. *)
Theorem pump_step_collapses_without_cluster `{trig.ops}
    (feature_data : FeatureData.t) (zs : noise) (g : rng)
    (h : gmap nat Particle) (particles : list nat)
    (last_position : option SensorPosition.t) :
  FeatureData.filtered_mobile_clusters feature_data = [] →
  particles ≠ [] → 0 <= g 0%nat < 1 →
  ∃ (i r : nat) (h' : gmap nat Particle)
    (last_position' : option SensorPosition.t),
    py_int (g 0%nat * IZR (Z.of_nat (length particles))) = Z.of_nat i ∧
    particles !! i = Some r ∧
    ∀ fuel, pump_step (S fuel) feature_data zs g (h, particles, last_position)
            = Ok (h', replicate (length particles) r, last_position').
Proof. apply pump_step_without_cluster. Qed.

Lemma pump_step_collapses_without_cluster_witness :
  ∃ (i r : nat) (h' : gmap nat Particle)
    (last_position' : option SensorPosition.t),
    py_int (1 / 2 * IZR (Z.of_nat 2)) = Z.of_nat i ∧
    [3; 5]%nat !! i = Some r ∧
    ∀ fuel,
      @pump_step degree_trig (S fuel)
        (FeatureData.make (Position.make 0 0) (Heading.make 0) [])
        (λ _, mkDeviates 0 0 0 0 0 0) (λ _, 1 / 2)
        (<[3%nat := mkParticle 50 10 10 1 (1 / 2) (3 / 2)]>
           (<[5%nat := mkParticle 60 0 10 1 (1 / 2) (3 / 2)]> ∅),
         [3; 5]%nat, None)
      = Ok (h', replicate 2 r, last_position').
Proof.
  apply (@pump_step_collapses_without_cluster degree_trig
           (FeatureData.make (Position.make 0 0) (Heading.make 0) [])
           (λ _, mkDeviates 0 0 0 0 0 0) (λ _, 1 / 2)
           (<[3%nat := mkParticle 50 10 10 1 (1 / 2) (3 / 2)]>
              (<[5%nat := mkParticle 60 0 10 1 (1 / 2) (3 / 2)]> ∅))
           [3; 5]%nat None).
  - reflexivity.
  - discriminate.
  - lra.
Defined.

(** ** The creation of the particles *)

Section Init.
Variables fov_range fov_angle gps compass rres ares : R.
Variable drawn : R → Prop.
Variable made : Particle → Prop.
Hypothesis made_init :
  ∀ u1 u2, drawn u1 → drawn u2 →
    made (Particle_init fov_range fov_angle gps compass rres ares u1 u2).

Lemma init_particles_spec (count : nat) :
  ∀ (g : rng) (h : gmap nat Particle) (particles : list nat),
    (∀ k, drawn (g k)) → NoDup particles →
    (∀ r, r ∈ particles → r ∈ dom h) →
    Forall (λ r, ∃ p, h !! r = Some p ∧ made p) particles →
    ∃ h' particles' g',
      init_particles count fov_range fov_angle gps compass rres ares g h
                     particles = (h', particles', g') ∧
      length particles' = (length particles + count)%nat ∧
      NoDup particles' ∧
      (∀ r, r ∈ particles' → r ∈ dom h') ∧
      Forall (λ r, ∃ p, h' !! r = Some p ∧ made p) particles' ∧
      (∀ k, g' k = g (2 * count + k)%nat).
Proof.
  induction count as [| count IH]; intros g h particles Hg Hnodup Hdom Hmade.
  - exists h, particles, g. cbn. repeat split; auto; lia.
  - cbn [init_particles random alloc].
    set (self := Particle_init fov_range fov_angle gps compass rres ares
                   (g 0%nat) (g 1%nat)).
    set (r := fresh (dom h)).
    assert (Hfresh : r ∉ dom h) by apply is_fresh.
    assert (Hnew : r ∉ particles) by (intros Hin; apply Hfresh, Hdom, Hin).
    destruct (IH (λ n, g (S (S n))) (<[r := self]> h) (particles ++ [r]))
      as [h' [ps' [g' [Hrun [Hlen [Hnd [Hd [Hm Hg']]]]]]]].
    + intros k. apply Hg.
    + apply NoDup_app. split; [exact Hnodup |]. split; [| apply NoDup_singleton].
      intros x Hx Hxr. apply list_elem_of_singleton in Hxr. subst x. contradiction.
    + intros x Hx. apply elem_of_app in Hx. rewrite dom_insert_L.
      destruct Hx as [Hx | Hx]; [apply elem_of_union_r, Hdom, Hx |].
      apply list_elem_of_singleton in Hx. subst x.
      apply elem_of_union_l, elem_of_singleton. reflexivity.
    + apply Forall_app. split.
      * rewrite Forall_forall in Hmade. apply Forall_forall. intros x Hx.
        destruct (Hmade x Hx) as [p [Hp Hpm]]. exists p. split; [| exact Hpm].
        rewrite lookup_insert_ne; [exact Hp |]. intros ->. contradiction.
      * constructor; [| constructor]. exists self.
        split; [apply lookup_insert_eq |]. apply made_init; apply Hg.
    + exists h', ps', g'. split; [exact Hrun |].
      split; [rewrite Hlen, length_app; cbn; lia |].
      split; [exact Hnd |]. split; [exact Hd |]. split; [exact Hm |].
      intros k. rewrite Hg'. f_equal. lia.
Qed.
End Init.

(** X20.  With a positive field of view and draws of [random.random()] in [0, 1),
    the creation loop of [main] makes [num_particles] particles that are
    distinct objects, each inside the field of view and with the noise levels
    and resolutions given, and it draws twice per particle. *)
Theorem init_particles_makes_distinct_particles (num_particles : nat)
    (fov_range fov_angle gps compass rres ares : R) (g : rng) :
  0 < fov_range → 0 < fov_angle → (∀ k, 0 <= g k < 1) →
  ∃ h particles g',
    init_particles num_particles fov_range fov_angle gps compass rres ares
                   g ∅ [] = (h, particles, g') ∧
    length particles = num_particles ∧ NoDup particles ∧
    (∀ k, g' k = g (2 * num_particles + k)%nat) ∧
    ∀ r, r ∈ particles →
      ∃ p, h !! r = Some p ∧
           0 <= surface_range p < fov_range ∧
           - fov_angle / 2 <= hor_angle p < fov_angle / 2 ∧
           gps_noise p = gps ∧ compass_noise p = compass ∧
           range_resolution p = rres ∧ angular_resolution p = ares.
Proof.
  intros Hr Ha Hg.
  destruct (init_particles_spec fov_range fov_angle gps compass rres ares
              (λ u, 0 <= u < 1)
              (λ p, 0 <= surface_range p < fov_range ∧
                    - fov_angle / 2 <= hor_angle p < fov_angle / 2 ∧
                    gps_noise p = gps ∧ compass_noise p = compass ∧
                    range_resolution p = rres ∧ angular_resolution p = ares))
    with (count := num_particles) (g := g) (h := (∅ : gmap nat Particle))
         (particles := @nil nat)
    as [h [ps [g' [Hrun [Hlen [Hnd [_ [Hmade Hg']]]]]]]].
  - intros u1 u2 Hu1 Hu2. unfold Particle_init; cbn.
    repeat split; try reflexivity; nra.
  - exact Hg.
  - constructor.
  - intros r Hin. apply elem_of_nil in Hin. contradiction.
  - constructor.
  - exists h, ps, g'. split; [exact Hrun |]. split; [exact Hlen |].
    split; [exact Hnd |]. split; [exact Hg' |].
    rewrite Forall_forall in Hmade. exact Hmade.
Qed.

Lemma init_particles_makes_distinct_particles_witness :
  ∃ h particles g',
    init_particles 3 500 90 10 1 (1 / 2) (3 / 2) (λ _, 1 / 4) ∅ []
    = (h, particles, g') ∧
    length particles = 3%nat ∧ NoDup particles ∧
    (∀ k, g' k = (λ _, 1 / 4) (2 * 3 + k)%nat) ∧
    ∀ r, r ∈ particles →
      ∃ p, h !! r = Some p ∧
           0 <= surface_range p < 500 ∧
           - 90 / 2 <= hor_angle p < 90 / 2 ∧
           gps_noise p = 10 ∧ compass_noise p = 1 ∧
           range_resolution p = 1 / 2 ∧ angular_resolution p = 3 / 2.
Proof.
  apply (init_particles_makes_distinct_particles 3 500 90 10 1 (1 / 2)
           (3 / 2) (λ _, 1 / 4)).
  - lra.
  - lra.
  - intros k. lra.
Defined.

(** ** [main] as a whole *)

Lemma init_particles_populated (num_particles : nat)
    (fov_range fov_angle gps compass rres ares : R) (g : rng) :
  ∃ h particles g',
    init_particles num_particles fov_range fov_angle gps compass rres ares
                   g ∅ [] = (h, particles, g') ∧
    length particles = num_particles ∧
    Forall (λ r, ∃ p, h !! r = Some p ∧
                      range_resolution p = rres ∧ angular_resolution p = ares)
           particles.
Proof.
  destruct (init_particles_spec fov_range fov_angle gps compass rres ares
              (λ _, True)
              (λ p, range_resolution p = rres ∧ angular_resolution p = ares))
    with (count := num_particles) (g := g) (h := (∅ : gmap nat Particle))
         (particles := @nil nat)
    as [h [ps [g' [Hrun [Hlen [_ [_ [Hmade _]]]]]]]].
  - intros u1 u2 _ _. split; reflexivity.
  - intros k. exact I.
  - constructor.
  - intros r Hin. apply elem_of_nil in Hin. contradiction.
  - constructor.
  - exists h, ps, g'. split; [exact Hrun |]. split; [exact Hlen | exact Hmade].
Qed.



(** X22.  Asked for no particle at all, [main] raises [ValueError] on the first
    feature data: [max] receives an empty list of weights. *)
Theorem main_without_particle_raises `{trig.ops} (fuel : nat)
    (gps compass rres ares fov_range fov_angle : R) (g : rng)
    (step : FeatureData.t * noise * rng)
    (steps : list (FeatureData.t * noise * rng)) :
  main fuel 0 gps compass rres ares fov_range fov_angle g (step :: steps)
  = Raise ValueError.
Proof. destruct step as [[feature_data zs] g1]. reflexivity. Qed.

(** X23.  With a resolution equal to 0, [main] raises [ZeroDivisionError] on the
    first feature data that has a cluster, when it comes first. *)
Theorem main_with_zero_resolution_raises `{trig.ops} (fuel : nat)
    (num_particles : nat) (gps compass rres ares fov_range fov_angle : R)
    (g : rng) (feature_data : FeatureData.t) (zs : noise) (g1 : rng)
    (steps : list (FeatureData.t * noise * rng)) :
  (0 < num_particles)%nat → rres = 0 ∨ ares = 0 →
  FeatureData.filtered_mobile_clusters feature_data ≠ [] →
  main fuel num_particles gps compass rres ares fov_range fov_angle g
       ((feature_data, zs, g1) :: steps)
  = Raise ZeroDivisionError.
Proof.
  intros Hn Hzero Hclusters. unfold main.
  destruct (init_particles_populated num_particles fov_range fov_angle gps
              compass rres ares g) as [h0 [ps0 [g' [Hinit [Hlen Hmade]]]]].
  rewrite Hinit. cbn [pump pump_step]. rewrite bind_Ok.
  destruct ps0 as [| r ps0]; [cbn in Hlen; lia |].
  apply Forall_cons in Hmade. destruct Hmade as [[p [Hp [Hpr Hpa]]] _].
  unfold get_measurements.
  destruct (FeatureData.filtered_mobile_clusters feature_data)
    as [| cluster clusters]; [contradiction |].
  unfold objects, get_weights. cbn [fmap list_fmap get_weights_from best_weight].
  rewrite (lookup_total_correct _ _ _ Hp).
  rewrite measurement_prob_unresolved; [reflexivity |].
  unfold resolved. intros [Hnr Hna]. destruct Hzero; congruence.
Qed.

Lemma main_with_zero_resolution_raises_witness :
  @main degree_trig 5 3 10 1 0 (3 / 2) 500 90 (λ _, 1 / 4)
    [(FeatureData.make (Position.make 0 0) (Heading.make 0)
        [Cluster.make (Centroid.make 48 12)],
      λ _, mkDeviates 0 0 0 0 0 0, λ _, 1 / 2)]
  = Raise ZeroDivisionError.
Proof.
  apply (@main_with_zero_resolution_raises degree_trig 5 3 10 1 0 (3 / 2)
           500 90 (λ _, 1 / 4)).
  - lia.
  - left. reflexivity.
  - discriminate.
Defined.
